(** * The traversal kernel of SoAction

    A shallow embedding of [src/actions/SoAction.cpp]: the three [apply]
    entry points, the path-code state machine driven by [pushCurPath],
    the index derivation of [getPathCode] / [usePathCode], the re-entry
    helpers [switchToPathTraversal] / [switchToNodeTraversal] and the
    applied-to accessors.

    Conventions.
    - A C++ [int] is a [Z]; a [SoNode *] is the address of the node, a [Z]
      whose value [0] is the null pointer.  Nodes are never inspected by
      the kernel, only compared and handed to the dispatch table.
    - Paths and path lists are dereferenced by the kernel, so a pointer to
      one of them is modelled by the pointed-to value, [None] being the
      null pointer.
    - Every operation that can dereference a null pointer, index out of
      range, read an inactive member of the [applieddata] union or fail an
      [assert] lives in the [exec] monad, whose [Undefined] outcome stands
      for all of these.
    - Reference counts live in the nodes and paths, not in the action; the
      [ref] / [unrefNoDelete] pairs of [apply] leave the action untouched
      and are not part of the action state modelled here. *)

From stdpp Require Import base tactics option list sorting.
From Stdlib Require Import ZArith Lia.

Local Open Scope Z_scope.

(** ** Outcomes of kernel operations *)

Inductive exec (A : Type) : Type :=
| Returns (a : A)
| Undefined.
Arguments Returns {A} a.
Arguments Undefined {A}.

Definition exec_bind {A B : Type} (f : A -> exec B) (m : exec A) : exec B :=
  match m with
  | Returns a => f a
  | Undefined => Undefined
  end.

Definition exec_map {A B : Type} (f : A -> B) (m : exec A) : exec B :=
  match m with
  | Returns a => Returns (f a)
  | Undefined => Undefined
  end.

#[global] Instance exec_ret : MRet exec := fun A a => Returns a.
#[global] Instance exec_mbind : MBind exec := fun A B f m => exec_bind f m.
#[global] Instance exec_fmap : FMap exec := fun A B f m => exec_map f m.

Definition returns {A : Type} (m : exec A) : Prop :=
  match m with Returns _ => True | Undefined => False end.

(** A pointer to an object the kernel dereferences. *)
Definition ptr (A : Type) : Type := option A.
Definition deref {A : Type} (p : ptr A) : exec A :=
  match p with
  | Some a => Returns a
  | None => Undefined
  end.

(** ** Nodes *)

Abbreviation SoNodePtr := Z (only parsing).
Definition NULL : SoNodePtr := 0.

(** ** Paths *)

(** Modelled from the spec: [SoPath] and [SoTempPath] (their sources are
    not part of the kernel file).  A path is the ordered sequence of
    (node, child-index) pairs; entry 0 is the head, whose index slot is the
    placeholder [-1] and is never a child index. *)
Abbreviation SoPath := (list (Z * Z)) (only parsing).
Abbreviation SoTempPath := (list (Z * Z)) (only parsing).

(** Modelled from the spec: [SoPath::getFullLength], the number of steps,
    the head counting as step 0. *)
Definition getFullLength (p : SoPath) : Z := Z.of_nat (length p).

(** Modelled from the spec: [SoPath::getLength]; hidden children are not
    modelled, so it agrees with the full length. *)
Definition getLength (p : SoPath) : Z := getFullLength p.

(** Modelled from the spec: [SoPath::getIndex], the child index at step
    [i]; undefined for [i = 0] and out of range. *)
Definition getIndex (p : SoPath) (i : Z) : exec Z :=
  if (i <=? 0) then Undefined
  else match p !! Z.to_nat i with
       | Some e => Returns (snd e)
       | None => Undefined
       end.

(** Modelled from the spec: [SoPath::getNode], the resolved node at step
    [i]; [getNode 0] is the head. *)
Definition getNode (p : SoPath) (i : Z) : exec SoNodePtr :=
  if (i <? 0) then Undefined
  else match p !! Z.to_nat i with
       | Some e => Returns (fst e)
       | None => Undefined
       end.

(** Modelled from the spec: [SoPath::getHead]; an empty path has a null
    head. *)
Definition getHead (p : SoPath) : SoNodePtr :=
  match p with
  | [] => NULL
  | e :: _ => fst e
  end.

(** Modelled from the spec: [SoPath::getTail]; null on an empty path. *)
Definition getTail (p : SoPath) : SoNodePtr :=
  match last p with
  | Some e => fst e
  | None => NULL
  end.

(** Modelled from the spec: [SoPath::setHead] sets the head and
    truncates. *)
Definition setHead (node : SoNodePtr) (p : SoPath) : SoPath := [(node, -1)].

(** Modelled from the spec: [SoTempPath::append(node, index)] edits the
    tail. *)
Definition append (node : SoNodePtr) (index : Z) (p : SoPath) : SoPath :=
  p ++ [(node, index)].

(** Modelled from the spec: [SoPath::pop] removes the tail. *)
Definition pop (p : SoPath) : SoPath := removelast p.

(** Modelled from the spec: [SoPath::truncate]. *)
Definition truncate (len : Z) (p : SoPath) : SoPath := take (Z.to_nat len) p.

(** Modelled from the spec: [SoPath::containsPath]: [other] is a prefix of
    [this] in terms of (node, child-index) pairs starting at the head. *)
Fixpoint containsPath (this other : SoPath) {struct other} : bool :=
  match other, this with
  | [], _ => true
  | _ :: _, [] => false
  | (n', i') :: other', (n, i) :: this' =>
      (n =? n') && (i =? i') && containsPath this' other'
  end.

(** The child indices of a path, head excluded. *)
Definition childIndices (p : SoPath) : list Z := map snd (tail p).

(** ** Path lists *)

(** Modelled from the spec: [SoPathList] is a vector of paths. *)
Abbreviation SoPathList := (list (list (Z * Z))) (only parsing).

(** Modelled from the spec: child index sequences are compared
    lexicographically, a proper prefix coming first. *)
Fixpoint indices_compare (l1 l2 : list Z) : comparison :=
  match l1, l2 with
  | [], [] => Eq
  | [], _ :: _ => Lt
  | _ :: _, [] => Gt
  | x :: l1', y :: l2' =>
      match x ?= y with
      | Eq => indices_compare l1' l2'
      | c => c
      end
  end.

(** Modelled from the spec: the ordering of paths is lexicographic on the
    head identity, then on the child indices. *)
Definition path_compare (p q : SoPath) : comparison :=
  match getHead p ?= getHead q with
  | Eq => indices_compare (childIndices p) (childIndices q)
  | c => c
  end.

(** [p] does not come after [q] in the ordering of paths. *)
Definition path_leb (p q : SoPath) : bool :=
  match path_compare p q with
  | Gt => false
  | _ => true
  end.

Definition path_le (p q : SoPath) : Prop := path_leb p q = true.

#[global] Instance path_le_dec : RelDecision path_le.
Proof. intros p q. unfold path_le. apply _. Defined.

(** Modelled from the spec: [SoPathList::sort] sorts by the path
    ordering. *)
Definition sort (l : SoPathList) : SoPathList := merge_sort path_le l.

(** Modelled from the spec: [SoPathList::uniquify] walks a sorted list and
    drops every path that continues through (or equals) the path kept
    before it, so that no remaining path is a prefix of another; the
    shorter path is the one that stays, as in the spec's scenario S4,
    where the longer paths are subsumed by their prefix. *)
Fixpoint uniquify_from (kept : SoPath) (l : SoPathList) : SoPathList :=
  match l with
  | [] => []
  | p :: l' =>
      if containsPath p kept then uniquify_from kept l'
      else p :: uniquify_from p l'
  end.

Definition uniquify (l : SoPathList) : SoPathList :=
  match l with
  | [] => []
  | p :: l' => p :: uniquify_from p l'
  end.

(** ** The action record *)

Inductive AppliedCode : Type := NODE | PATH | PATH_LIST.

Inductive PathCode : Type := NO_PATH | IN_PATH | BELOW_PATH | OFF_PATH.

#[global] Instance AppliedCode_eq_dec : EqDecision AppliedCode.
Proof. solve_decision. Defined.
#[global] Instance PathCode_eq_dec : EqDecision PathCode.
Proof. solve_decision. Defined.

(** The [applieddata] union: the constructor records which member was
    written last. *)
Inductive AppliedData : Type :=
| data_node (node : SoNodePtr)
| data_path (path : ptr SoPath)
| data_pathlistdata (pathlist origpathlist : ptr SoPathList).

(** Reading a member of the union; reading a member other than the one
    written last is undefined. *)
Definition applieddata_node (d : AppliedData) : exec SoNodePtr :=
  match d with data_node n => Returns n | _ => Undefined end.
Definition applieddata_path (d : AppliedData) : exec (ptr SoPath) :=
  match d with data_path p => Returns p | _ => Undefined end.
Definition applieddata_pathlist (d : AppliedData) : exec (ptr SoPathList) :=
  match d with data_pathlistdata pl _ => Returns pl | _ => Undefined end.
Definition applieddata_origpathlist (d : AppliedData) : exec (ptr SoPathList) :=
  match d with data_pathlistdata _ o => Returns o | _ => Undefined end.

(** [applieddata.pathlistdata.pathlist = pl], the other member of the
    struct being kept. *)
Definition write_pathlist (pl : ptr SoPathList) (d : AppliedData) : AppliedData :=
  match d with
  | data_pathlistdata _ o => data_pathlistdata pl o
  | _ => data_pathlistdata pl None
  end.

(** What the kernel takes from its collaborators: the traversal state, the
    dispatch table with its [setUp], and the scene graph's child lookup
    used by [SoPath::append(int)]. *)
Class Collaborators : Type := {
  SoState : Type;
  SoActionMethodList : Type;
  SoState_new : SoState;
  SoActionMethodList_setUp : SoActionMethodList -> SoActionMethodList;
  SoNode_getChild : SoNodePtr -> Z -> exec SoNodePtr
}.

Record SoAction `{Collaborators} : Type := mkSoAction {
  state : ptr SoState;
  traversalMethods : ptr SoActionMethodList;
  appliedcode : AppliedCode;
  applieddata : AppliedData;
  currentpath : SoTempPath;
  terminated : bool;
  currentpathcode : PathCode;
  pathcodearray : list (list Z)
}.

Section Kernel.
Context `{C : Collaborators}.

(** Field updates ([this->field = v]). *)
Definition set_state (v : ptr SoState) (a : SoAction) : SoAction :=
  mkSoAction _ v (traversalMethods a) (appliedcode a) (applieddata a)
    (currentpath a) (terminated a) (currentpathcode a) (pathcodearray a).
Definition set_traversalMethods (v : ptr SoActionMethodList) (a : SoAction) : SoAction :=
  mkSoAction _ (state a) v (appliedcode a) (applieddata a)
    (currentpath a) (terminated a) (currentpathcode a) (pathcodearray a).
Definition set_appliedcode (v : AppliedCode) (a : SoAction) : SoAction :=
  mkSoAction _ (state a) (traversalMethods a) v (applieddata a)
    (currentpath a) (terminated a) (currentpathcode a) (pathcodearray a).
Definition set_applieddata (v : AppliedData) (a : SoAction) : SoAction :=
  mkSoAction _ (state a) (traversalMethods a) (appliedcode a) v
    (currentpath a) (terminated a) (currentpathcode a) (pathcodearray a).
Definition set_currentpath (v : SoTempPath) (a : SoAction) : SoAction :=
  mkSoAction _ (state a) (traversalMethods a) (appliedcode a) (applieddata a)
    v (terminated a) (currentpathcode a) (pathcodearray a).
Definition set_terminated (v : bool) (a : SoAction) : SoAction :=
  mkSoAction _ (state a) (traversalMethods a) (appliedcode a) (applieddata a)
    (currentpath a) v (currentpathcode a) (pathcodearray a).
Definition set_currentpathcode (v : PathCode) (a : SoAction) : SoAction :=
  mkSoAction _ (state a) (traversalMethods a) (appliedcode a) (applieddata a)
    (currentpath a) (terminated a) v (pathcodearray a).
Definition set_pathcodearray (v : list (list Z)) (a : SoAction) : SoAction :=
  mkSoAction _ (state a) (traversalMethods a) (appliedcode a) (applieddata a)
    (currentpath a) (terminated a) (currentpathcode a) v.

(** [SoAction::SoAction]. *)
Definition SoAction_new : SoAction :=
  mkSoAction _ None None NODE (data_node NULL) [] false NO_PATH [].

(** The overridable part of an action: the per-node-type action methods
    reached through the dispatch table, and the two virtual traversal
    hooks. *)
Class Methods : Type := {
  actionMethod : SoActionMethodList -> SoNodePtr -> SoAction -> exec SoAction;
  beginTraversal : SoNodePtr -> SoAction -> exec SoAction;
  endTraversal : SoNodePtr -> SoAction -> exec SoAction
}.

(** Indexed access [pl[i]]. *)
Definition SoPathList_get (l : SoPathList) (i : Z) : exec SoPath :=
  if (i <? 0) then Undefined
  else match l !! Z.to_nat i with
       | Some p => Returns p
       | None => Undefined
       end.

Definition SoPathList_getLength (l : SoPathList) : Z := Z.of_nat (length l).

(** ** Accessors *)

Definition getWhatAppliedTo (a : SoAction) : AppliedCode := appliedcode a.

Definition getNodeAppliedTo (a : SoAction) : exec SoNodePtr :=
  if decide (appliedcode a = NODE) then applieddata_node (applieddata a)
  else Returns NULL.

Definition getPathAppliedTo (a : SoAction) : exec (ptr SoPath) :=
  if decide (appliedcode a = PATH) then applieddata_path (applieddata a)
  else Returns None.

Definition getPathListAppliedTo (a : SoAction) : exec (ptr SoPathList) :=
  if decide (appliedcode a = PATH_LIST) then applieddata_pathlist (applieddata a)
  else Returns None.

Definition getOriginalPathListAppliedTo (a : SoAction) : exec (ptr SoPathList) :=
  if decide (appliedcode a = PATH_LIST) then applieddata_origpathlist (applieddata a)
  else Returns None.

(** [SoAction::nullAction]. *)
Definition nullAction (a : SoAction) (node : SoNodePtr) : SoAction := a.

(** [SoAction::isLastPathListAppliedTo] and
    [SoAction::shouldCompactPathList]. *)
Definition isLastPathListAppliedTo (a : SoAction) : bool := true.
Definition shouldCompactPathList (a : SoAction) : bool := true.

Definition hasTerminated (a : SoAction) : bool := terminated a.

Definition setTerminated (flag : bool) (a : SoAction) : SoAction :=
  set_terminated flag a.

Definition getCurPath (a : SoAction) : SoTempPath := currentpath a.

Definition getCurPathTail (a : SoAction) : SoNodePtr := getTail (currentpath a).

(** [SoAction::getState]: the state is created on first use. *)
Definition getState (a : SoAction) : SoAction * SoState :=
  match state a with
  | None => (set_state (Some SoState_new) a, SoState_new)
  | Some s => (a, s)
  end.

Definition invalidateState (a : SoAction) : SoAction := set_state None a.

(** ** The path-code state machine *)

(** [SoPath::append(int)]: the child is looked up under the current
    tail. *)
Definition append_index (childindex : Z) (p : SoPath) : exec SoPath :=
  node ← SoNode_getChild (getTail p) childindex;
  mret (append node childindex p).

(** [if (node) currentpath.append(node, childindex);
    else currentpath.append(childindex);] *)
Definition append_child (childindex : Z) (node : SoNodePtr) (p : SoTempPath)
  : exec SoTempPath :=
  if decide (node ≠ NULL) then mret (append node childindex p)
  else append_index childindex p.

(** The search loop of [pushCurPath]: returns the final values of [i] and
    [len]; leaving the loop through [break] keeps [i] below [n]. *)
Fixpoint search_containing (cur : SoTempPath) (curlen : Z)
    (pl : SoPathList) (i len : Z) : Z * Z :=
  match pl with
  | [] => (i, len)
  | path :: pl' =>
      let len := getFullLength path in
      if (len >=? curlen) && containsPath path cur then (i, len)
      else search_containing cur curlen pl' (i + 1) len
  end.

(** [SoAction::pushCurPath(const int, SoNode * )]. *)
Definition pushCurPath (childindex : Z) (node : SoNodePtr) (a : SoAction)
  : exec SoAction :=
  cp ← append_child childindex node (currentpath a);
  let a := set_currentpath cp a in
  let curlen := getFullLength (currentpath a) in
  if decide (currentpathcode a = IN_PATH) then
    if decide (getWhatAppliedTo a = PATH) then
      pp ← applieddata_path (applieddata a);
      path ← deref pp;
      if (curlen <=? getFullLength path) then
        ci ← getIndex (currentpath a) (curlen - 1);
        pi ← getIndex path (curlen - 1);
        if decide (ci ≠ pi) then mret (set_currentpathcode OFF_PATH a)
        else if decide (curlen = getFullLength path)
             then mret (set_currentpathcode BELOW_PATH a)
             else mret a
      else Undefined
    else
      plp ← applieddata_pathlist (applieddata a);
      pl ← deref plp;
      let n := SoPathList_getLength pl in
      let '(i, len) := search_containing (currentpath a) curlen pl 0 (-1) in
      if decide (i = n) then mret (set_currentpathcode OFF_PATH a)
      else if decide (len = curlen) then mret (set_currentpathcode BELOW_PATH a)
           else mret a
  else mret a.

(** [SoAction::pushCurPath(void)]. *)
Definition pushCurPath_void (a : SoAction) : SoAction :=
  set_currentpath (append NULL (-1) (currentpath a)) a.

(** [SoAction::popPushCurPath]. *)
Definition popPushCurPath (childindex : Z) (node : SoNodePtr) (a : SoAction)
  : exec SoAction :=
  let a := set_currentpath (pop (currentpath a)) a in
  if decide (node = NULL) then
    cp ← append_index childindex (currentpath a);
    mret (set_currentpath cp a)
  else mret (set_currentpath (append node childindex (currentpath a)) a).

(** [SoAction::popCurPath(void)]. *)
Definition popCurPath (a : SoAction) : SoAction :=
  set_currentpath (pop (currentpath a)) a.

(** ** Index derivation *)

(** The out-parameters of [getPathCode]: [indices] is the array the
    pointer designates. *)
Record IndexArgs : Type := mkIndexArgs {
  numindices : Z;
  indices : list Z
}.

(** The loop of [usePathCode] over the applied path list: the final values
    of [myarray] and [previdx]. *)
Fixpoint collect_indices (cur : SoTempPath) (curlen : Z) (pl : SoPathList)
    (previdx : Z) (myarray : list Z) : exec (list Z) :=
  match pl with
  | [] => mret myarray
  | path :: pl' =>
      if (getFullLength path >? curlen) && containsPath path cur then
        idx ← getIndex path curlen;
        if decide (idx ≠ previdx)
        then collect_indices cur curlen pl' idx (myarray ++ [idx])
        else collect_indices cur curlen pl' previdx myarray
      else collect_indices cur curlen pl' previdx myarray
  end.

(** [SoAction::usePathCode]. *)
Definition usePathCode (a : SoAction) : exec (SoAction * IndexArgs) :=
  let curlen := getFullLength (currentpath a) in
  let grown := pathcodearray a
               ++ replicate (Z.to_nat curlen - length (pathcodearray a))%nat [] in
  if (curlen - 1 <? 0) then Undefined
  else
    let slot := Z.to_nat (curlen - 1) in
    let myarray : list Z := [] in
    if decide (getWhatAppliedTo a = PATH_LIST) then
      plp ← applieddata_pathlist (applieddata a);
      pl ← deref plp;
      myarray ← collect_indices (currentpath a) curlen pl (-1) myarray;
      mret (set_pathcodearray (<[slot := myarray]> grown) a,
            mkIndexArgs (Z.of_nat (length myarray)) myarray)
    else
      pp ← applieddata_path (applieddata a);
      path ← deref pp;
      idx ← getIndex path curlen;
      let myarray := myarray ++ [idx] in
      mret (set_pathcodearray (<[slot := myarray]> grown) a,
            mkIndexArgs 1 myarray).

(** [SoAction::getPathCode]: [args] holds the caller's variables behind
    the two reference parameters. *)
Definition getPathCode (args : IndexArgs) (a : SoAction)
  : exec (SoAction * IndexArgs * PathCode) :=
  if decide (currentpathcode a = IN_PATH) then
    '(a', args') ← usePathCode a;
    mret (a', args', currentpathcode a')
  else mret (a, args, currentpathcode a).

End Kernel.

Section Traversal.
Context `{C : Collaborators} {M : Methods}.

(** [SoAction::traverse]: dispatch on the node's type through the
    action's table. *)
Definition traverse (node : SoNodePtr) (a : SoAction) : exec SoAction :=
  methods ← deref (traversalMethods a);
  if decide (node = NULL) then Undefined
  else actionMethod methods node a.

(** The base-class bodies of the two virtual hooks. *)
Definition SoAction_beginTraversal (node : SoNodePtr) (a : SoAction)
  : exec SoAction := traverse node a.
Definition SoAction_endTraversal (node : SoNodePtr) (a : SoAction)
  : exec SoAction := mret a.

(** The seed of the path code at the start of a path traversal. *)
Definition seed_code (path : SoPath) : PathCode :=
  if (getFullLength path >? 1) then IN_PATH else BELOW_PATH.

(** The three assignments that end every [apply]. *)
Definition restore_applied (storedcode : AppliedCode) (storedcurr : PathCode)
    (storeddata : AppliedData) (a : SoAction) : SoAction :=
  set_applieddata storeddata
    (set_currentpathcode storedcurr (set_appliedcode storedcode a)).

(** [assert(this->traversalMethods); this->traversalMethods->setUp();] *)
Definition setUp_methods (a : SoAction) : exec SoAction :=
  methods ← deref (traversalMethods a);
  mret (set_traversalMethods (Some (SoActionMethodList_setUp methods)) a).

(** [SoAction::apply(SoNode * root)]. *)
Definition apply_node (root : SoNodePtr) (a : SoAction) : exec SoAction :=
  let storedcode := appliedcode a in
  let storedcurr := currentpathcode a in
  let storeddata := applieddata a in
  a ← setUp_methods a;
  let a := set_terminated false a in
  let a := set_currentpathcode NO_PATH a in
  let a := set_applieddata (data_node root) a in
  let a := set_appliedcode NODE a in
  a ← (if decide (root ≠ NULL) then
         let a := set_currentpath (setHead root (currentpath a)) a in
         let a := fst (getState a) in
         a ← beginTraversal root a;
         a ← endTraversal root a;
         mret (set_applieddata (data_node NULL) a)
       else mret a);
  mret (restore_applied storedcode storedcurr storeddata a).

(** [SoAction::apply(SoPath * path)]. *)
Definition apply_path (path : ptr SoPath) (a : SoAction) : exec SoAction :=
  let storedcode := appliedcode a in
  let storedcurr := currentpathcode a in
  let storeddata := applieddata a in
  a ← setUp_methods a;
  let a := set_terminated false a in
  p ← deref path;
  let a := set_currentpathcode (seed_code p) a in
  let a := set_applieddata (data_path path) a in
  let a := set_appliedcode PATH a in
  let a := fst (getState a) in
  a ← (if decide (getLength p ≠ 0) then
         node ← getNode p 0;
         if decide (node ≠ NULL) then
           let a := set_currentpath (setHead node (currentpath a)) a in
           a ← beginTraversal node a;
           endTraversal node a
         else mret a
       else mret a);
  mret (restore_applied storedcode storedcurr storeddata a).

(** The inner [while] of the multi-head branch: extends [templist] with
    the paths from position [i] on that share [head].  [fuel] bounds the
    number of iterations; the loop advances [i] at every iteration, so the
    length of the list plus one is never used up. *)
Fixpoint collect_head (fuel : nat) (sortedlist : SoPathList) (num : Z)
    (head : SoNodePtr) (i : Z) (templist : SoPathList)
  : exec (Z * SoPathList) :=
  match fuel with
  | O => Undefined
  | S fuel' =>
      if (i <? num) then
        p ← SoPathList_get sortedlist i;
        if decide (getHead p = head)
        then collect_head fuel' sortedlist num head (i + 1) (templist ++ [p])
        else mret (i, templist)
      else mret (i, templist)
  end.

(** The outer [while] of the multi-head branch: one pass per head node,
    entered only while the action has not terminated.  [templist] is
    declared outside the loop and emptied at the end of every pass;
    [fuel] as for the inner loop. *)
Fixpoint head_passes (fuel : nat) (sortedlist : SoPathList) (num : Z)
    (i : Z) (templist : SoPathList) (a : SoAction) : exec SoAction :=
  match fuel with
  | O => Undefined
  | S fuel' =>
      if (i <? num) && negb (hasTerminated a) then
        p ← SoPathList_get sortedlist i;
        let head := getHead p in
        let templist := templist ++ [p] in
        let i := i + 1 in
        '(i, templist) ← collect_head fuel' sortedlist num head i templist;
        let a := set_applieddata (write_pathlist (Some templist) (applieddata a)) a in
        let a := set_appliedcode PATH_LIST a in
        t0 ← SoPathList_get templist 0;
        let a := set_currentpathcode (seed_code t0) a in
        let a := set_currentpath (setHead (getHead t0) (currentpath a)) a in
        a ← beginTraversal (getHead t0) a;
        let templist : SoPathList := [] in
        head_passes fuel' sortedlist num i templist a
      else mret a
  end.

(** [SoAction::apply(const SoPathList & pathlist, SbBool obeysrules)]. *)
Definition apply_pathlist (pathlist : SoPathList) (obeysrules : bool)
    (a : SoAction) : exec SoAction :=
  a ← setUp_methods a;
  if decide (SoPathList_getLength pathlist = 0) then mret a
  else
    let storedcode := appliedcode a in
    let storedcurr := currentpathcode a in
    let storeddata := applieddata a in
    let a := set_terminated false a in
    let a := fst (getState a) in
    let a := set_applieddata (data_pathlistdata (Some pathlist) (Some pathlist)) a in
    let a := set_appliedcode PATH_LIST a in
    p0 ← SoPathList_get pathlist 0;
    let a := set_currentpathcode (seed_code p0) a in
    a ← (if obeysrules then
           let a := set_currentpath (setHead (getHead p0) (currentpath a)) a in
           a ← beginTraversal (getHead p0) a;
           endTraversal (getHead p0) a
         else
           let sortedlist := uniquify (sort pathlist) in
           let num := SoPathList_getLength sortedlist in
           s0 ← SoPathList_get sortedlist 0;
           sl ← SoPathList_get sortedlist (num - 1);
           if decide (getHead s0 = getHead sl) then
             let a := set_currentpath (setHead (getHead s0) (currentpath a)) a in
             let a := set_applieddata
                        (write_pathlist (Some sortedlist) (applieddata a)) a in
             a ← beginTraversal (getHead s0) a;
             endTraversal (getHead s0) a
           else
             head_passes (S (length sortedlist)) sortedlist num 0 [] a);
    mret (restore_applied storedcode storedcurr storeddata a).

(** [SoAction::switchToPathTraversal]. *)
Definition switchToPathTraversal (path : ptr SoPath) (a : SoAction)
  : exec SoAction :=
  let storeddata := applieddata a in
  let storedcode := appliedcode a in
  let storedpathcode := currentpathcode a in
  let storedpath := currentpath a in
  let a := set_appliedcode PATH a in
  let a := set_applieddata (data_path path) a in
  let a := set_currentpathcode IN_PATH a in
  p ← deref path;
  node ← getNode p 0;
  a ← traverse node a;
  let a := set_currentpath storedpath a in
  let a := set_currentpathcode storedpathcode a in
  let a := set_applieddata storeddata a in
  let a := set_appliedcode storedcode a in
  mret a.

(** [SoAction::switchToNodeTraversal]. *)
Definition switchToNodeTraversal (node : SoNodePtr) (a : SoAction)
  : exec SoAction :=
  let storeddata := applieddata a in
  let storedcode := appliedcode a in
  let storedpathcode := currentpathcode a in
  let storedpath := currentpath a in
  let a := set_appliedcode NODE a in
  let a := set_applieddata (data_node node) a in
  let a := set_currentpathcode NO_PATH a in
  let a := set_currentpath (truncate 0 (currentpath a)) a in
  a ← traverse node a;
  let a := set_currentpath storedpath a in
  let a := set_currentpathcode storedpathcode a in
  let a := set_applieddata storeddata a in
  let a := set_appliedcode storedcode a in
  mret a.

End Traversal.

(** ** Reference descriptions used by the statements below *)

Section Reference.
Context `{C : Collaborators} {M : Methods}.

(** The transition [pushCurPath] takes from [IN_PATH] on a single path:
    [cur] is the current path after the push, [pi] the applied path's
    index at the new depth. *)
Definition path_transition (path : SoPath) (cur : SoTempPath) (childindex pi : Z)
  : PathCode :=
  if decide (childindex ≠ pi) then OFF_PATH
  else if decide (getFullLength cur = getFullLength path) then BELOW_PATH
       else IN_PATH.

(** Descending through a sequence of children, one [pushCurPath] each. *)
Fixpoint pushCurPath_along (steps : list (SoNodePtr * Z)) (a : SoAction)
  : exec SoAction :=
  match steps with
  | [] => mret a
  | (node, childindex) :: steps' =>
      a ← pushCurPath childindex node a;
      pushCurPath_along steps' a
  end.

(** A path of the applied list is a candidate for the current path when
    it is at least as long and contains it. *)
Definition candidate (cur : SoTempPath) (path : SoPath) : bool :=
  (getFullLength path >=? getFullLength cur) && containsPath path cur.

(** A path of the applied list continues below the current path when it
    is strictly longer and contains it. *)
Definition continues (cur : SoTempPath) (path : SoPath) : bool :=
  (getFullLength path >? getFullLength cur) && containsPath path cur.

(** The child indices, at the depth below the current path, of the paths
    that continue below it, in list order. *)
Fixpoint next_indices (cur : SoTempPath) (pl : SoPathList) : list Z :=
  match pl with
  | [] => []
  | path :: pl' =>
      if continues cur path then
        match path !! length cur with
        | Some e => snd e :: next_indices cur pl'
        | None => next_indices cur pl'
        end
      else next_indices cur pl'
  end.

(** Order-preserving removal of duplicates: every value is kept at its
    first occurrence only. *)
Fixpoint dedup_seen (seen : list Z) (l : list Z) : list Z :=
  match l with
  | [] => []
  | x :: l' =>
      if decide (x ∈ seen) then dedup_seen seen l'
      else x :: dedup_seen (x :: seen) l'
  end.

(** The span of leading paths with the given head, and what follows. *)
Fixpoint same_head_run (head : SoNodePtr) (l : SoPathList)
  : SoPathList * SoPathList :=
  match l with
  | [] => ([], [])
  | p :: l' =>
      if decide (getHead p = head) then
        let '(run, rest) := same_head_run head l' in (p :: run, rest)
      else ([], l)
  end.

(** The maximal runs of consecutive paths with one head. *)
Fixpoint group_heads (l : SoPathList) : list SoPathList :=
  match l with
  | [] => []
  | p :: l' =>
      match group_heads l' with
      | (q :: g) :: gs =>
          if decide (getHead q = getHead p) then (p :: q :: g) :: gs
          else [p] :: (q :: g) :: gs
      | _ => [[p]]
      end
  end.

(** The head shared by the paths of a group. *)
Definition group_head (g : SoPathList) : SoNodePtr :=
  match g with
  | [] => NULL
  | p :: _ => getHead p
  end.


(** The paths of a list that start at the given head. *)
Definition paths_from (head : SoNodePtr) (l : SoPathList) : SoPathList :=
  filter (fun p => getHead p = head) l.

(** One traversal over one head group of a multi-head path list. *)
Definition head_pass (group : SoPathList) (a : SoAction) : exec SoAction :=
  let a := set_applieddata (write_pathlist (Some group) (applieddata a)) a in
  let a := set_appliedcode PATH_LIST a in
  t0 ← SoPathList_get group 0;
  let a := set_currentpathcode (seed_code t0) a in
  let a := set_currentpath (setHead (getHead t0) (currentpath a)) a in
  beginTraversal (getHead t0) a.

(** The head groups in order, none being started once the action has
    terminated. *)
Fixpoint run_head_passes (groups : list SoPathList) (a : SoAction)
  : exec SoAction :=
  match groups with
  | [] => mret a
  | g :: groups' =>
      if hasTerminated a then mret a
      else a ← head_pass g a; run_head_passes groups' a
  end.

(** The action as every [apply] on a path list configures it before it
    looks at [obeysrules]. *)
Definition pathlist_configured (pathlist : SoPathList) (p0 : SoPath)
    (methods : SoActionMethodList) (a : SoAction) : SoAction :=
  set_currentpathcode (seed_code p0)
    (set_appliedcode PATH_LIST
      (set_applieddata (data_pathlistdata (Some pathlist) (Some pathlist))
        (fst (getState
          (set_terminated false
            (set_traversalMethods (Some (SoActionMethodList_setUp methods)) a)))))).

(** The tag [appliedcode] names the member of [applieddata] that was
    written last. *)
Definition coherent (a : SoAction) : Prop :=
  match appliedcode a, applieddata a with
  | NODE, data_node _ => True
  | PATH, data_path _ => True
  | PATH_LIST, data_pathlistdata _ _ => True
  | _, _ => False
  end.

(** The three fields every [apply] saves and restores are those of the
    action [a] the call started from. *)
Definition applied_restored (a a' : SoAction) : Prop :=
  appliedcode a' = appliedcode a
  /\ applieddata a' = applieddata a
  /\ currentpathcode a' = currentpathcode a.

(** The four assignments that end [switchToPathTraversal] and
    [switchToNodeTraversal], from the fields of the interrupted
    traversal [a]. *)
Definition restore_switched (a b : SoAction) : SoAction :=
  set_appliedcode (appliedcode a)
    (set_applieddata (applieddata a)
      (set_currentpathcode (currentpathcode a)
        (set_currentpath (currentpath a) b))).

(** Dropping every value equal to the one kept just before it, [prev]
    being the value to compare the first one with. *)
Fixpoint drop_repeats (prev : Z) (l : list Z) : list Z :=
  match l with
  | [] => []
  | x :: l' =>
      if decide (x ≠ prev) then x :: drop_repeats x l'
      else drop_repeats prev l'
  end.

(** The child indices of a path are indices into child lists. *)
Definition valid_indices (path : SoPath) : Prop :=
  Forall (fun i => 0 <= i) (childIndices path).


(** A traversal hook that always comes back to the kernel. *)
Definition always_returns (f : SoNodePtr -> SoAction -> exec SoAction) : Prop :=
  forall node a, returns (f node a).


(** An action method leaves the termination flag alone. *)
Definition keeps_running (f : SoAction -> exec SoAction) : Prop :=
  forall a a', f a = Returns a' -> terminated a = false -> terminated a' = false.

(** The action of the base class: the two traversal hooks keep their
    [SoAction] bodies, the action methods are those of the table. *)
Definition base_class
    (methodOf : SoActionMethodList -> SoNodePtr -> SoAction -> exec SoAction)
  : Methods :=
  let dispatch := {| actionMethod := methodOf;
                     beginTraversal := fun _ a => Returns a;
                     endTraversal := fun _ a => Returns a |} in
  {| actionMethod := methodOf;
     beginTraversal := @SoAction_beginTraversal C dispatch;
     endTraversal := @SoAction_endTraversal C |}.

(** A traversal hook that hands the current path back as it received it
    (every push matched by a pop). *)
Definition keeps_currentpath (f : SoNodePtr -> SoAction -> exec SoAction) : Prop :=
  forall node a a', f node a = Returns a' -> currentpath a' = currentpath a.




End Reference.

(** ** A small scene for concrete runs

    The graph [G0 -> (A, B, C)], [A -> (A0, A1)], nodes named by their
    addresses. *)

Module Scene.

Definition G0 : SoNodePtr := 1.
Definition A : SoNodePtr := 2.
Definition B : SoNodePtr := 3.
Definition A0 : SoNodePtr := 5.
Definition A1 : SoNodePtr := 6.
Definition H0 : SoNodePtr := 9.

Definition children (node : SoNodePtr) : list SoNodePtr :=
  if decide (node = G0) then [A; B; 4]
  else if decide (node = A) then [A0; A1]
  else [].

Definition getChild (node : SoNodePtr) (childindex : Z) : exec SoNodePtr :=
  if (childindex <? 0) then Undefined
  else match children node !! Z.to_nat childindex with
       | Some c => Returns c
       | None => Undefined
       end.

#[local] Instance collaborators : Collaborators := {|
  SoState := unit;
  SoActionMethodList := nat;
  SoState_new := tt;
  SoActionMethodList_setUp := Nat.max 1;
  SoNode_getChild := getChild
|}.

(** An action whose methods do nothing. *)
Definition idle : Methods := {|
  actionMethod := fun _ _ a => Returns a;
  beginTraversal := fun _ a => Returns a;
  endTraversal := fun _ a => Returns a
|}.

(** An action whose methods stop the traversal at the first node. *)
Definition stopping : Methods := {|
  actionMethod := fun _ _ a => Returns (setTerminated true a);
  beginTraversal := fun _ a => Returns (setTerminated true a);
  endTraversal := fun _ a => Returns a
|}.

Definition path_G0 : SoPath := [(G0, -1)].
Definition path_A : SoPath := [(G0, -1); (A, 0)].
Definition path_A1 : SoPath := [(G0, -1); (A, 0); (A1, 1)].
Definition path_B : SoPath := [(G0, -1); (B, 1)].
Definition path_H0 : SoPath := [(H0, -1)].

(** A set-up action, outside any traversal, that was terminated by an
    earlier run. *)
Definition ready : SoAction :=
  mkSoAction _ (Some tt) (Some O) NODE (data_node NULL) [] false NO_PATH [].
Definition stopped : SoAction := setTerminated true ready.

(** The action at the head of a traversal of the given path. *)
Definition at_head_of (path : SoPath) : SoAction :=
  mkSoAction _ (Some tt) (Some O) PATH (data_path (Some path)) [(G0, -1)]
    false IN_PATH [].

(** The action at the head of a traversal of the given path list. *)
Definition at_head_of_list (pl : SoPathList) : SoAction :=
  mkSoAction _ (Some tt) (Some O) PATH_LIST
    (data_pathlistdata (Some pl) (Some pl)) [(G0, -1)] false IN_PATH [].

End Scene.

(** * Properties *)

(** ** Outcomes *)

Lemma exec_bind_returns {A B : Type} (m : exec A) (f : A -> exec B) (b : B) :
  m ≫= f = Returns b -> exists a, m = Returns a /\ f a = Returns b.
Proof. destruct m as [a|]; [eauto | discriminate]. Qed.

Ltac exec_inv H :=
  let x := fresh "x" in
  let Hx := fresh "Hx" in
  apply exec_bind_returns in H as (x & Hx & H).

(** ** Paths *)

Lemma getFullLength_append node index (p : SoPath) :
  getFullLength (append node index p) = getFullLength p + 1.
Proof. unfold getFullLength, append. rewrite length_app. simpl. lia. Qed.

Lemma getFullLength_nonneg (p : SoPath) : 0 <= getFullLength p.
Proof. unfold getFullLength. lia. Qed.

Lemma getFullLength_pos (p : SoPath) : p <> [] -> 1 <= getFullLength p.
Proof. destruct p; [done | unfold getFullLength; simpl; lia]. Qed.

Lemma getIndex_lookup (p : SoPath) (k : nat) e :
  (0 < k)%nat -> p !! k = Some e -> getIndex p (Z.of_nat k) = Returns (snd e).
Proof.
  intros Hk Hl. unfold getIndex.
  destruct (Z.leb_spec (Z.of_nat k) 0) as [?|_]; [lia|].
  by rewrite Nat2Z.id, Hl.
Qed.

Lemma getIndex_append_last node index (p : SoPath) :
  p <> [] ->
  getIndex (append node index p) (getFullLength (append node index p) - 1)
  = Returns index.
Proof.
  intros Hp. rewrite getFullLength_append.
  replace (getFullLength p + 1 - 1) with (Z.of_nat (length p)) by (unfold getFullLength; lia).
  apply (getIndex_lookup _ _ (node, index)).
  - destruct p; [done | simpl; lia].
  - unfold append. by rewrite list_lookup_middle.
Qed.

Lemma containsPath_prefix (this other : SoPath) :
  containsPath this other = true <-> other `prefix_of` this.
Proof.
  revert this. induction other as [|[n' i'] other IH]; intros this; simpl.
  - split; [intros _; apply prefix_nil | done].
  - destruct this as [|[n i] this].
    + split; [done | intros H; by apply prefix_nil_not in H].
    + rewrite !andb_true_iff, IH, !Z.eqb_eq. split.
      * intros [[-> ->] H]. by apply prefix_cons.
      * intros H. pose proof (prefix_cons_inv_1 _ _ _ _ H) as Heq.
        apply prefix_cons_inv_2 in H. by inversion Heq.
Qed.

(** ** The ordering of paths *)

Lemma indices_compare_eq (l1 l2 : list Z) :
  indices_compare l1 l2 = Eq <-> l1 = l2.
Proof.
  revert l2. induction l1 as [|x l1 IH]; intros [|y l2]; simpl; try done.
  destruct (Z.compare_spec x y) as [->| |]; rewrite ?IH; split;
    intros Heq; try done; try (injection Heq; intros; subst; done || lia).
  by subst.
Qed.

Lemma indices_compare_opp (l1 l2 : list Z) :
  indices_compare l2 l1 = CompOpp (indices_compare l1 l2).
Proof.
  revert l2. induction l1 as [|x l1 IH]; intros [|y l2]; simpl; try done.
  rewrite (Z.compare_antisym x y).
  destruct (x ?= y); simpl; [apply IH|done|done].
Qed.

Lemma indices_compare_lt_trans (l1 l2 l3 : list Z) :
  indices_compare l1 l2 = Lt -> indices_compare l2 l3 = Lt ->
  indices_compare l1 l3 = Lt.
Proof.
  revert l2 l3. induction l1 as [|x l1 IH]; intros [|y l2] [|z l3]; simpl; try done.
  destruct (Z.compare_spec x y); try done;
    destruct (Z.compare_spec y z); try done;
    destruct (Z.compare_spec x z); intros H12 H23; try done; try lia.
  by apply (IH l2).
Qed.

Lemma path_compare_opp (p q : SoPath) :
  path_compare q p = CompOpp (path_compare p q).
Proof.
  unfold path_compare. rewrite (Z.compare_antisym (getHead p) (getHead q)).
  destruct (getHead p ?= getHead q); simpl; [apply indices_compare_opp|done|done].
Qed.

Lemma path_compare_lt_trans (p q r : SoPath) :
  path_compare p q = Lt -> path_compare q r = Lt -> path_compare p r = Lt.
Proof.
  unfold path_compare.
  destruct (Z.compare_spec (getHead p) (getHead q)) as [Hpq| |]; try done;
    destruct (Z.compare_spec (getHead q) (getHead r)) as [Hqr| |]; try done;
    intros H1 H2;
    destruct (Z.compare_spec (getHead p) (getHead r)); try lia; try done.
  by apply (indices_compare_lt_trans _ (childIndices q)).
Qed.

Lemma path_compare_eq_key (p q : SoPath) :
  path_compare p q = Eq <-> getHead p = getHead q /\ childIndices p = childIndices q.
Proof.
  unfold path_compare.
  destruct (Z.compare_spec (getHead p) (getHead q)); rewrite ?indices_compare_eq;
    split; intros; try done; try lia; by destruct_and?.
Qed.

Lemma path_le_total : Total path_le.
Proof.
  intros p q. unfold path_le, path_leb. rewrite (path_compare_opp p q).
  destruct (path_compare p q); simpl; auto.
Qed.

Lemma path_le_trans : Transitive path_le.
Proof.
  intros p q r. unfold path_le, path_leb.
  destruct (path_compare p q) eqn:Hpq; try done;
    destruct (path_compare q r) eqn:Hqr; try done; intros _ _.
  - apply path_compare_eq_key in Hpq as [? ?]. apply path_compare_eq_key in Hqr as [? ?].
    assert (path_compare p r = Eq) as -> by (apply path_compare_eq_key; split; congruence).
    done.
  - apply path_compare_eq_key in Hpq as [Hh Hi].
    unfold path_compare in *. rewrite Hh, Hi. by rewrite Hqr.
  - apply path_compare_eq_key in Hqr as [Hh Hi].
    unfold path_compare in *. rewrite <- Hh, <- Hi. by rewrite Hpq.
  - by rewrite (path_compare_lt_trans p q r).
Qed.

Lemma path_le_head (p q : SoPath) : path_le p q -> getHead p <= getHead q.
Proof.
  unfold path_le, path_leb, path_compare.
  destruct (Z.compare_spec (getHead p) (getHead q)); try done; lia.
Qed.

(** ** Normalising a path list *)

Lemma sort_sorted (l : SoPathList) : StronglySorted path_le (sort l).
Proof.
  apply (@StronglySorted_merge_sort _ path_le _ path_le_trans path_le_total).
Qed.

Lemma sort_permutation (l : SoPathList) : sort l ≡ₚ l.
Proof. apply merge_sort_Permutation. Qed.

Lemma uniquify_from_sublist kept (l : SoPathList) :
  uniquify_from kept l `sublist_of` l.
Proof.
  revert kept. induction l as [|p l IH]; intros kept; simpl; [constructor|].
  destruct (containsPath p kept); [by apply sublist_cons | by apply sublist_skip].
Qed.

Lemma uniquify_sublist (l : SoPathList) : uniquify l `sublist_of` l.
Proof.
  destruct l as [|p l]; simpl; [constructor|].
  apply sublist_skip, uniquify_from_sublist.
Qed.

Lemma uniquify_head (l : SoPathList) : head (uniquify l) = head l.
Proof. by destruct l. Qed.

Lemma sort_nonempty (l : SoPathList) : l <> [] -> sort l <> [].
Proof.
  intros Hl Hs. pose proof (sort_permutation l) as Hp. rewrite Hs in Hp.
  by apply Permutation_nil_l in Hp.
Qed.

Lemma normalized_nonempty (l : SoPathList) : l <> [] -> uniquify (sort l) <> [].
Proof.
  intros Hl. pose proof (sort_nonempty l Hl).
  by destruct (sort l).
Qed.

Lemma StronglySorted_sublist {A} (R : relation A) (l1 l2 : list A) :
  l1 `sublist_of` l2 -> StronglySorted R l2 -> StronglySorted R l1.
Proof.
  induction 1 as [|x l1 l2 Hsub IH|x l1 l2 Hsub IH]; intros Hs; [done| |].
  - apply StronglySorted_inv in Hs as [Hs Hall]. constructor; [by apply IH|].
    rewrite Forall_forall in *. intros y Hy. apply Hall.
    by apply (elem_of_sublist l1).
  - apply StronglySorted_inv in Hs as [Hs _]. by apply IH.
Qed.

Lemma normalized_sorted (l : SoPathList) :
  StronglySorted path_le (uniquify (sort l)).
Proof.
  apply (StronglySorted_sublist _ _ (sort l)); [apply uniquify_sublist | apply sort_sorted].
Qed.


(** ** Removing duplicates *)



Lemma dedup_seen_sublist seen (l : list Z) : dedup_seen seen l `sublist_of` l.
Proof.
  revert seen. induction l as [|y l IH]; intros seen; simpl; [constructor|].
  case_decide; [by apply sublist_cons | by apply sublist_skip].
Qed.




Section KernelFacts.
Context `{C : Collaborators} {M : Methods}.

Lemma append_child_shape childindex node (p cur : SoTempPath) :
  append_child childindex node p = Returns cur ->
  exists child, cur = append child childindex p.
Proof.
  unfold append_child, append_index. case_decide.
  - intros [= <-]. eauto.
  - intros Hr. exec_inv Hr. injection Hr as <-. eauto.
Qed.

Lemma append_child_nonnull childindex node (p : SoTempPath) :
  node <> NULL -> append_child childindex node p = Returns (append node childindex p).
Proof. intros Hn. unfold append_child. by case_decide. Qed.

(** ** The path-code state machine on a single path *)

Lemma set_currentpathcode_same (a : SoAction) :
  set_currentpathcode (currentpathcode a) a = a.
Proof. by destruct a. Qed.

Lemma set_currentpath_same (a : SoAction) :
  set_currentpath (currentpath a) a = a.
Proof. by destruct a. Qed.

Lemma pushCurPath_path_step (a : SoAction) (path : SoPath) childindex node cur :
  currentpathcode a = IN_PATH ->
  getWhatAppliedTo a = PATH ->
  applieddata a = data_path (Some path) ->
  currentpath a <> [] ->
  append_child childindex node (currentpath a) = Returns cur ->
  getFullLength cur <= getFullLength path ->
  exists pi,
    getIndex cur (getFullLength cur - 1) = Returns childindex /\
    getIndex path (getFullLength cur - 1) = Returns pi /\
    pushCurPath childindex node a
    = Returns (set_currentpathcode (path_transition path cur childindex pi)
                 (set_currentpath cur a)).
Proof.
  intros Hin Hwhat Hdata Hne Happ Hassert.
  destruct (append_child_shape _ _ _ _ Happ) as [child ->].
  pose proof (getIndex_append_last child childindex _ Hne) as Hci.
  pose proof (getFullLength_pos _ Hne) as Hpos.
  rewrite getFullLength_append in Hassert.
  assert (exists e, path !! length (currentpath a) = Some e) as [e He].
  { apply lookup_lt_is_Some. unfold getFullLength in Hassert. lia. }
  assert (getIndex path (getFullLength (append child childindex (currentpath a)) - 1)
          = Returns (snd e)) as Hpi.
  { rewrite getFullLength_append.
    replace (getFullLength (currentpath a) + 1 - 1)
      with (Z.of_nat (length (currentpath a))) by (unfold getFullLength; lia).
    apply getIndex_lookup; [|done]. unfold getFullLength in Hpos. lia. }
  exists (snd e). split; [done|]. split; [done|].
  unfold pushCurPath. rewrite Happ. simpl.
  unfold getWhatAppliedTo in *. simpl. rewrite Hin, Hwhat, Hdata. simpl.
  rewrite getFullLength_append.
  destruct (Z.leb_spec (getFullLength (currentpath a) + 1) (getFullLength path)) as [_|?];
    [|lia].
  rewrite getFullLength_append in Hci, Hpi. rewrite Hci, Hpi. simpl.
  unfold path_transition. rewrite getFullLength_append.
  repeat case_decide; try done.
  f_equal. destruct a; simpl in *. by subst.
Qed.

Lemma pushCurPath_keeps_code (a : SoAction) childindex node cur :
  currentpathcode a <> IN_PATH ->
  append_child childindex node (currentpath a) = Returns cur ->
  pushCurPath childindex node a = Returns (set_currentpath cur a).
Proof.
  intros Hcode Happ. unfold pushCurPath. rewrite Happ. simpl.
  by case_decide.
Qed.

Lemma pushCurPath_along_keeps_code steps (a : SoAction) :
  currentpathcode a <> IN_PATH ->
  Forall (fun s => fst s <> NULL) steps ->
  pushCurPath_along steps a = Returns (set_currentpath (currentpath a ++ steps) a).
Proof.
  revert a. induction steps as [|[node childindex] steps IH]; intros a Hcode Hnn.
  - simpl. rewrite app_nil_r. by rewrite set_currentpath_same.
  - inversion Hnn as [|? ? Hn Hnn']; subst. simpl in Hn. simpl.
    rewrite (pushCurPath_keeps_code a childindex node (append node childindex (currentpath a)));
      [|done|by apply append_child_nonnull].
    simpl. rewrite IH; [|done|done]. simpl.
    unfold append. rewrite <- app_assoc. simpl. by destruct a.
Qed.

(** Following the indices of the applied path from a node strictly above
    its tail. *)
Lemma pushCurPath_along_path steps (a : SoAction) (path : SoPath) :
  currentpathcode a = IN_PATH ->
  getWhatAppliedTo a = PATH ->
  applieddata a = data_path (Some path) ->
  currentpath a <> [] ->
  (length (currentpath a) < length path)%nat ->
  Forall (fun s => fst s <> NULL) steps ->
  map snd steps `prefix_of` map snd (drop (length (currentpath a)) path) ->
  pushCurPath_along steps a
  = Returns (set_currentpathcode
               (if decide (length (currentpath a) + length steps < length path)%nat
                then IN_PATH else BELOW_PATH)
               (set_currentpath (currentpath a ++ steps) a)).
Proof.
  revert a. induction steps as [|[node childindex] steps IH];
    intros a Hin Hwhat Hdata Hne Hlt Hnn Hpre.
  - simpl. rewrite app_nil_r, set_currentpath_same.
    case_decide; [|lia]. by rewrite <- Hin, set_currentpathcode_same.
  - inversion Hnn as [|? ? Hn Hnn']; subst. simpl in Hn.
    destruct (drop (length (currentpath a)) path) as [|e rest] eqn:Hdrop.
    { apply (f_equal length) in Hdrop. rewrite length_drop in Hdrop. simpl in Hdrop. lia. }
    simpl in Hpre.
    pose proof (prefix_cons_inv_1 _ _ _ _ Hpre) as He.
    apply prefix_cons_inv_2 in Hpre.
    assert (path !! length (currentpath a) = Some e) as Hlook.
    { rewrite <- (Nat.add_0_r (length (currentpath a))), <- lookup_drop. by rewrite Hdrop. }
    assert (drop (length (currentpath a) + 1) path = rest) as Hdrop'.
    { rewrite <- drop_drop. by rewrite Hdrop. }
    pose proof (append_child_nonnull childindex node (currentpath a) Hn) as Happ.
    destruct (pushCurPath_path_step a path childindex node _ Hin Hwhat Hdata Hne Happ)
      as (pi & _ & Hpi & Hstep).
    { rewrite getFullLength_append. unfold getFullLength. lia. }
    assert (pi = childindex) as ->.
    { rewrite getFullLength_append in Hpi.
      replace (getFullLength (currentpath a) + 1 - 1)
        with (Z.of_nat (length (currentpath a))) in Hpi by (unfold getFullLength; lia).
      rewrite (getIndex_lookup _ _ e) in Hpi; [|destruct (currentpath a); [done|simpl; lia]|done].
      congruence. }
    simpl. rewrite Hstep. simpl.
    unfold path_transition. case_decide; [done|].
    rewrite getFullLength_append. unfold getFullLength.
    case_decide as Hlen.
    + (* the tail of the path is reached: nothing can follow *)
      assert (rest = []) as ->.
      { apply (f_equal length) in Hdrop'. rewrite length_drop in Hdrop'.
        destruct rest; [done|simpl in Hdrop'; lia]. }
      apply prefix_nil_inv in Hpre. destruct steps; [|done]. simpl.
      case_decide; [lia|]. unfold append. by destruct a.
    + rewrite IH; simpl; try done.
      * unfold append. rewrite length_app. simpl.
        rewrite <- app_assoc. simpl.
        f_equal. destruct a; simpl in *.
        repeat case_decide; try done; lia.
      * unfold append. by destruct (currentpath a).
      * unfold append. rewrite length_app. simpl. lia.
      * unfold append. rewrite length_app. simpl. by rewrite Hdrop'.
Qed.

Lemma pushCurPath_along_app steps1 steps2 (a : SoAction) :
  pushCurPath_along (steps1 ++ steps2) a
  = pushCurPath_along steps1 a ≫= pushCurPath_along steps2.
Proof.
  revert a. induction steps1 as [|[node childindex] steps1 IH]; intros a; [done|].
  simpl. destruct (pushCurPath childindex node a) as [a1|]; [|done].
  simpl. apply IH.
Qed.

(** Leaving the applied path at some depth, and whatever is pushed below
    the point of divergence. *)
Lemma pushCurPath_along_diverge steps node childindex more e
    (a : SoAction) (path : SoPath) :
  currentpathcode a = IN_PATH ->
  getWhatAppliedTo a = PATH ->
  applieddata a = data_path (Some path) ->
  currentpath a <> [] ->
  Forall (fun s => fst s <> NULL) steps ->
  map snd steps `prefix_of` map snd (drop (length (currentpath a)) path) ->
  path !! (length (currentpath a) + length steps)%nat = Some e ->
  childindex <> snd e ->
  node <> NULL ->
  Forall (fun s => fst s <> NULL) more ->
  pushCurPath_along (steps ++ (node, childindex) :: more) a
  = Returns (set_currentpathcode OFF_PATH
               (set_currentpath (currentpath a ++ steps ++ (node, childindex) :: more) a)).
Proof.
  intros Hin Hwhat Hdata Hne Hnn Hpre He Hdiff Hnode Hmore.
  assert (length (currentpath a) + length steps < length path)%nat as Hlt
    by (by apply lookup_lt_Some in He).
  rewrite pushCurPath_along_app.
  rewrite (pushCurPath_along_path steps a path); try done; [|lia].
  case_decide; [|lia]. simpl.
  set (a1 := set_currentpathcode IN_PATH (set_currentpath (currentpath a ++ steps) a)).
  assert (currentpath a1 = currentpath a ++ steps) as Hcp1 by done.
  assert (currentpath a1 <> []) as Hne1.
  { rewrite Hcp1. by destruct (currentpath a). }
  pose proof (append_child_nonnull childindex node (currentpath a1) Hnode) as Happ.
  destruct (pushCurPath_path_step a1 path childindex node _ eq_refl Hwhat Hdata Hne1 Happ)
    as (pi & _ & Hpi & Hstep).
  { rewrite getFullLength_append. unfold getFullLength. rewrite Hcp1, length_app. lia. }
  assert (pi = snd e) as ->.
  { rewrite getFullLength_append in Hpi.
    replace (getFullLength (currentpath a1) + 1 - 1)
      with (Z.of_nat (length (currentpath a) + length steps)) in Hpi
      by (unfold getFullLength; rewrite Hcp1, length_app; lia).
    rewrite (getIndex_lookup _ _ e) in Hpi; [congruence| |done].
    destruct (currentpath a); [done|simpl; lia]. }
  rewrite Hstep. simpl.
  unfold path_transition. case_decide; [|done].
  rewrite pushCurPath_along_keeps_code; [|done|done].
  simpl. unfold append. rewrite <- !app_assoc. simpl. by destruct a.
Qed.

(** C1: with the action applied to a single path and the path code
    [IN_PATH], [pushCurPath] appends the child and then compares the index
    just pushed with the applied path's index at the new depth: a
    difference gives [OFF_PATH], reaching the applied path's full length
    gives [BELOW_PATH], anything else leaves [IN_PATH].  Hence pushing the
    applied path's own indices keeps [IN_PATH] strictly above the tail
    and gives [BELOW_PATH] at the tail, while leaving the path at any
    depth gives [OFF_PATH] for everything pushed below that point. *)
Theorem pushCurPath_single_path (a : SoAction) (path : SoPath) childindex node cur :
  currentpathcode a = IN_PATH ->
  getWhatAppliedTo a = PATH ->
  applieddata a = data_path (Some path) ->
  currentpath a <> [] ->
  append_child childindex node (currentpath a) = Returns cur ->
  getFullLength cur <= getFullLength path ->
  (exists child pi,
     cur = append child childindex (currentpath a) /\
     getIndex cur (getFullLength cur - 1) = Returns childindex /\
     getIndex path (getFullLength cur - 1) = Returns pi /\
     pushCurPath childindex node a
     = Returns (set_currentpathcode
                  (if decide (childindex ≠ pi) then OFF_PATH
                   else if decide (getFullLength cur = getFullLength path)
                        then BELOW_PATH else IN_PATH)
                  (set_currentpath cur a)))
  /\ (forall steps,
        Forall (fun s => fst s <> NULL) steps ->
        map snd steps `prefix_of` map snd (drop (length (currentpath a)) path) ->
        pushCurPath_along steps a
        = Returns (set_currentpathcode
                     (if decide (getFullLength (currentpath a ++ steps) < getFullLength path)
                      then IN_PATH else BELOW_PATH)
                     (set_currentpath (currentpath a ++ steps) a)))
  /\ (forall steps node' childindex' more e,
        Forall (fun s => fst s <> NULL) steps ->
        map snd steps `prefix_of` map snd (drop (length (currentpath a)) path) ->
        path !! (length (currentpath a) + length steps)%nat = Some e ->
        childindex' <> snd e ->
        node' <> NULL ->
        Forall (fun s => fst s <> NULL) more ->
        pushCurPath_along (steps ++ (node', childindex') :: more) a
        = Returns (set_currentpathcode OFF_PATH
                     (set_currentpath
                        (currentpath a ++ steps ++ (node', childindex') :: more) a))).
Proof.
  intros Hin Hwhat Hdata Hne Happ Hassert. split; [|split].
  - destruct (append_child_shape _ _ _ _ Happ) as [child Hcur].
    destruct (pushCurPath_path_step a path childindex node cur) as (pi & H1 & H2 & H3);
      try done.
    exists child, pi. by repeat split.
  - intros steps Hnn Hpre.
    destruct (append_child_shape _ _ _ _ Happ) as [child ->].
    rewrite getFullLength_append in Hassert. unfold getFullLength in Hassert.
    rewrite (pushCurPath_along_path steps a path); try done; [|lia].
    unfold getFullLength. rewrite length_app.
    repeat case_decide; try done; lia.
  - intros steps node' childindex' more e Hnn Hpre He Hdiff Hnode Hmore.
    by apply (pushCurPath_along_diverge steps node' childindex' more e a path).
Qed.

(** ** The path-code state machine on a path list *)

Lemma search_containing_found (cur : SoTempPath) (pl : SoPathList) i len k found :
  list_find (fun p => candidate cur p = true) pl = Some (k, found) ->
  search_containing cur (getFullLength cur) pl i len
  = (i + Z.of_nat k, getFullLength found).
Proof.
  revert i len k. induction pl as [|p pl IH]; intros i len k Hfind; [done|].
  simpl in *. unfold candidate in Hfind at 1. case_decide as Hp.
  - injection Hfind as <- <-. rewrite Hp. f_equal. lia.
  - apply not_true_is_false in Hp. rewrite Hp.
    destruct (list_find _ pl) as [[k' found']|] eqn:Hrest; [|done].
    injection Hfind as <- <-. rewrite (IH _ _ k' eq_refl). f_equal. lia.
Qed.

Lemma search_containing_none (cur : SoTempPath) (pl : SoPathList) i len :
  list_find (fun p => candidate cur p = true) pl = None ->
  fst (search_containing cur (getFullLength cur) pl i len)
  = i + SoPathList_getLength pl.
Proof.
  revert i len. unfold SoPathList_getLength.
  induction pl as [|p pl IH]; intros i len Hfind; simpl; [lia|].
  simpl in Hfind. unfold candidate in Hfind at 1. case_decide as Hp; [done|].
  apply not_true_is_false in Hp. rewrite Hp.
  destruct (list_find _ pl) as [[k' found']|] eqn:Hrest; [done|].
  rewrite IH; [lia|done].
Qed.

Lemma candidate_spec (cur path : SoPath) :
  candidate cur path = true
  <-> getFullLength cur <= getFullLength path /\ cur `prefix_of` path.
Proof.
  unfold candidate. rewrite andb_true_iff, containsPath_prefix.
  destruct (Z.geb_spec (getFullLength path) (getFullLength cur)); split;
    intros [? ?]; split; try done; lia.
Qed.

(** C2: with the action applied to a path list and the path code
    [IN_PATH], [pushCurPath] appends the child and looks for the first
    path of the applied list that is at least as long as the new current
    path and contains it: when there is none the code becomes [OFF_PATH],
    when the path found has exactly the current full length it becomes
    [BELOW_PATH], and otherwise it stays [IN_PATH]. *)
Theorem pushCurPath_path_list (a : SoAction) (pl : SoPathList) orig
    childindex node cur :
  currentpathcode a = IN_PATH ->
  getWhatAppliedTo a = PATH_LIST ->
  applieddata a = data_pathlistdata (Some pl) orig ->
  append_child childindex node (currentpath a) = Returns cur ->
  pushCurPath childindex node a
  = Returns (set_currentpathcode
               (match list_find (fun p => candidate cur p = true) pl with
                | None => OFF_PATH
                | Some (_, found) =>
                    if decide (getFullLength found = getFullLength cur)
                    then BELOW_PATH else IN_PATH
                end)
               (set_currentpath cur a))
  /\ (list_find (fun p => candidate cur p = true) pl = None
      <-> forall p, p ∈ pl ->
            ~ (getFullLength cur <= getFullLength p /\ cur `prefix_of` p))
  /\ (forall k found,
        list_find (fun p => candidate cur p = true) pl = Some (k, found) ->
        pl !! k = Some found
        /\ getFullLength cur <= getFullLength found
        /\ cur `prefix_of` found
        /\ forall j p, pl !! j = Some p -> (j < k)%nat ->
             ~ (getFullLength cur <= getFullLength p /\ cur `prefix_of` p)).
Proof.
  intros Hin Hwhat Hdata Happ. split; [|split].
  - unfold pushCurPath. rewrite Happ. simpl.
    unfold getWhatAppliedTo in *. simpl. rewrite Hin, Hwhat, Hdata. simpl.
    destruct (list_find _ pl) as [[k found]|] eqn:Hfind.
    + rewrite (search_containing_found cur pl 0 (-1) k found Hfind).
      apply list_find_Some in Hfind as (Hk & _ & _).
      apply lookup_lt_Some in Hk.
      case_decide as Hi; [unfold SoPathList_getLength in Hi; lia|].
      repeat case_decide; try done.
      f_equal. destruct a; simpl in *. by subst.
    + pose proof (search_containing_none cur pl 0 (-1) Hfind) as Hnone.
      destruct (search_containing cur (getFullLength cur) pl 0 (-1)) as [i len].
      simpl in Hnone. case_decide; [done|lia].
  - rewrite list_find_None, Forall_forall.
    split; intros H p Hp; specialize (H p Hp); by rewrite candidate_spec in *.
  - intros k found Hfind.
    apply list_find_Some in Hfind as (Hk & Hc & Hfirst).
    apply candidate_spec in Hc as [? ?]. repeat split; try done.
    intros j p Hj Hlt. rewrite <- candidate_spec. by apply (Hfirst j).
Qed.

(** ** The multi-head loop *)

Lemma same_head_run_app head (l : SoPathList) :
  l = fst (same_head_run head l) ++ snd (same_head_run head l).
Proof.
  induction l as [|p l IH]; simpl; [done|].
  case_decide; [|done].
  destruct (same_head_run head l) as [run rest]. simpl in *. by f_equal.
Qed.

Lemma same_head_run_heads head (l : SoPathList) :
  Forall (fun p => getHead p = head) (fst (same_head_run head l)).
Proof.
  induction l as [|p l IH]; simpl; [constructor|].
  case_decide; [|constructor].
  destruct (same_head_run head l) as [run rest]. simpl in *. by constructor.
Qed.

Lemma group_heads_cons p (l : SoPathList) :
  group_heads (p :: l)
  = (p :: fst (same_head_run (getHead p) l))
      :: group_heads (snd (same_head_run (getHead p) l)).
Proof.
  revert p. induction l as [|q l IH]; intros p; [done|].
  change (group_heads (p :: q :: l))
    with (match group_heads (q :: l) with
          | (q' :: g) :: gs =>
              if decide (getHead q' = getHead p) then (p :: q' :: g) :: gs
              else [p] :: (q' :: g) :: gs
          | _ => [[p]]
          end).
  rewrite (IH q). simpl same_head_run.
  case_decide as Hq.
  - rewrite Hq. by destruct (same_head_run (getHead p) l).
  - cbn [fst snd]. by rewrite (IH q).
Qed.

Lemma SoPathList_get_middle (pre rest : SoPathList) p :
  SoPathList_get (pre ++ p :: rest) (Z.of_nat (length pre)) = Returns p.
Proof.
  unfold SoPathList_get.
  destruct (Z.ltb_spec (Z.of_nat (length pre)) 0); [lia|].
  by rewrite Nat2Z.id, list_lookup_middle.
Qed.

Lemma collect_head_run fuel (pre rest : SoPathList) head templist :
  (length rest < fuel)%nat ->
  collect_head fuel (pre ++ rest) (Z.of_nat (length (pre ++ rest))) head
    (Z.of_nat (length pre)) templist
  = Returns (Z.of_nat (length (pre ++ fst (same_head_run head rest))),
             templist ++ fst (same_head_run head rest)).
Proof.
  revert fuel pre templist. induction rest as [|p rest IH]; intros fuel pre templist Hfuel.
  - destruct fuel; [simpl in Hfuel; lia|]. simpl.
    rewrite !app_nil_r. by rewrite Z.ltb_irrefl.
  - destruct fuel; [simpl in Hfuel; lia|]. simpl in Hfuel.
    cbn [collect_head].
    destruct (Z.ltb_spec (Z.of_nat (length pre)) (Z.of_nat (length (pre ++ p :: rest))))
      as [_|Hge]; [|rewrite length_app in Hge; simpl in Hge; lia].
    rewrite SoPathList_get_middle. simpl.
    case_decide as Hp; [|by rewrite !app_nil_r].
    replace (pre ++ p :: rest) with ((pre ++ [p]) ++ rest) by (by rewrite <- app_assoc).
    replace (Z.of_nat (length pre) + 1) with (Z.of_nat (length (pre ++ [p])))
      by (rewrite length_app; simpl; lia).
    rewrite IH; [|lia].
    destruct (same_head_run head rest) as [run rest']. simpl.
    by rewrite <- !app_assoc.
Qed.

Lemma head_passes_groups fuel (pre rest : SoPathList) (a : SoAction) :
  (length rest < fuel)%nat ->
  head_passes fuel (pre ++ rest) (Z.of_nat (length (pre ++ rest)))
    (Z.of_nat (length pre)) [] a
  = run_head_passes (group_heads rest) a.
Proof.
  revert pre rest a. induction fuel as [|fuel IH]; intros pre rest a Hfuel; [lia|].
  destruct rest as [|p rest].
  - simpl. rewrite app_nil_r. by rewrite Z.ltb_irrefl.
  - simpl in Hfuel. rewrite group_heads_cons. cbn [head_passes run_head_passes].
    destruct (Z.ltb_spec (Z.of_nat (length pre)) (Z.of_nat (length (pre ++ p :: rest))))
      as [_|Hge]; [|rewrite length_app in Hge; simpl in Hge; lia].
    destruct (hasTerminated a); [done|]. simpl negb. cbn [andb].
    rewrite SoPathList_get_middle. simpl.
    replace (pre ++ p :: rest) with ((pre ++ [p]) ++ rest) by (by rewrite <- app_assoc).
    replace (Z.of_nat (length pre) + 1) with (Z.of_nat (length (pre ++ [p])))
      by (rewrite length_app; simpl; lia).
    rewrite collect_head_run; [|lia]. simpl.
    unfold head_pass. simpl.
    destruct (beginTraversal (getHead p) _) as [a1|]; [|done]. simpl.
    pose proof (same_head_run_app (getHead p) rest) as Hsplit.
    destruct (same_head_run (getHead p) rest) as [run rest']. simpl in *.
    rewrite Hsplit at 1. rewrite Hsplit at 1.
    rewrite (app_assoc (pre ++ [p]) run rest').
    apply IH. apply (f_equal length) in Hsplit. rewrite length_app in Hsplit. lia.
Qed.

(** ** The head groups of a sorted list *)

Lemma group_heads_shape (l : SoPathList) :
  Forall (fun g => g <> [] /\ Forall (fun p => getHead p = group_head g) g)
    (group_heads l).
Proof.
  induction l as [|p l IH]; simpl; [constructor|].
  destruct (group_heads l) as [|[|q g] gs].
  - repeat constructor; done.
  - repeat constructor; done.
  - apply Forall_cons in IH as [[_ Hg] Hgs]. simpl in Hg.
    case_decide as Hq.
    + constructor; [|done]. split; [done|]. simpl.
      constructor; [done|]. by rewrite <- Hq.
    + constructor; [|constructor; done]. repeat constructor; done.
Qed.

Lemma group_heads_concat (l : SoPathList) : concat (group_heads l) = l.
Proof.
  induction l as [|p l IH]; simpl; [done|].
  pose proof (group_heads_shape l) as Hshape.
  destruct (group_heads l) as [|[|q g] gs].
  - simpl in *. by subst.
  - apply Forall_cons in Hshape as [[? _] _]. done.
  - case_decide; simpl in *; by subst.
Qed.

Lemma group_heads_first p (l : SoPathList) :
  exists g gs, group_heads (p :: l) = (p :: g) :: gs.
Proof. rewrite group_heads_cons. eauto. Qed.

Lemma group_heads_ascending (l : SoPathList) :
  StronglySorted (fun p q => getHead p <= getHead q) l ->
  StronglySorted Z.lt (map group_head (group_heads l)).
Proof.
  induction l as [|p l IH]; intros Hs; simpl; [constructor|].
  apply StronglySorted_inv in Hs as [Hs Hp]. specialize (IH Hs).
  destruct l as [|q l]; [repeat constructor|].
  destruct (group_heads_first q l) as (g & gs & Hg).
  rewrite Hg in *. simpl in IH.
  apply Forall_cons in Hp as [Hpq _].
  case_decide as Hq; simpl.
  - by rewrite <- Hq.
  - apply StronglySorted_inv in IH as [IH Hlt].
    constructor; [by constructor|].
    constructor; [lia|].
    eapply Forall_impl; [exact Hlt|]. simpl. intros h Hh. lia.
Qed.

Lemma paths_from_other head (g : SoPathList) :
  Forall (fun p => getHead p <> head) g -> paths_from head g = [].
Proof.
  unfold paths_from. induction 1 as [|p g Hp _ IH]; [done|].
  rewrite filter_cons. by case_decide.
Qed.

Lemma paths_from_same head (g : SoPathList) :
  Forall (fun p => getHead p = head) g -> paths_from head g = g.
Proof.
  unfold paths_from. induction 1 as [|p g Hp _ IH]; [done|].
  rewrite filter_cons. case_decide; [by f_equal|done].
Qed.

Lemma paths_from_groups (groups : list SoPathList) g :
  Forall (fun g => g <> [] /\ Forall (fun p => getHead p = group_head g) g) groups ->
  StronglySorted Z.lt (map group_head groups) ->
  g ∈ groups ->
  paths_from (group_head g) (concat groups) = g.
Proof.
  induction groups as [|g1 groups IH]; intros Hshape Hasc Hg;
    [by apply elem_of_nil in Hg|].
  apply Forall_cons in Hshape as [[_ Hg1] Hshape].
  simpl in Hasc. apply StronglySorted_inv in Hasc as [Hasc Hlt].
  simpl. unfold paths_from. rewrite filter_app. fold (paths_from (group_head g) g1).
  fold (paths_from (group_head g) (concat groups)).
  apply elem_of_cons in Hg as [->|Hg].
  - rewrite paths_from_same; [|done].
    rewrite paths_from_other; [by rewrite app_nil_r|].
    apply Forall_concat. rewrite Forall_forall. intros g2 Hg2.
    rewrite Forall_forall in Hshape. destruct (Hshape g2 Hg2) as [_ Hh2].
    eapply Forall_impl; [exact Hh2|]. simpl. intros p ->.
    rewrite Forall_forall in Hlt.
    assert (group_head g1 < group_head g2); [|lia].
    apply Hlt. apply list_elem_of_fmap. eauto.
  - rewrite IH; try done.
    rewrite paths_from_other; [done|].
    eapply Forall_impl; [exact Hg1|]. simpl. intros p ->.
    rewrite Forall_forall in Hlt.
    assert (group_head g1 < group_head g); [|lia].
    apply Hlt. apply list_elem_of_fmap. eauto.
Qed.

Lemma head_sorted (l : SoPathList) :
  StronglySorted path_le l ->
  StronglySorted (fun p q => getHead p <= getHead q) l.
Proof.
  induction 1 as [|p l Hs IH Hp]; constructor; [done|].
  eapply Forall_impl; [exact Hp|]. intros q. apply path_le_head.
Qed.

(** On a list sorted by head, the first and the last path share their
    head exactly when all paths do. *)
Lemma one_head_first_last (l : SoPathList) s0 sl :
  StronglySorted (fun p q => getHead p <= getHead q) l ->
  l !! 0%nat = Some s0 -> last l = Some sl ->
  getHead s0 = getHead sl <-> Forall (fun p => getHead p = getHead s0) l.
Proof.
  intros Hs H0 Hl. destruct l as [|p l]; [done|]. simpl in H0. injection H0 as ->.
  apply StronglySorted_inv in Hs as [Hs Hle]. split.
  - intros Heq. constructor; [done|].
    destruct l as [|q l]; [constructor|].
    rewrite last_cons_cons in Hl.
    assert (Forall (fun p => getHead p <= getHead sl) (q :: l)) as Hup.
    { clear Hle. revert q Hs Hl. induction l as [|r l IH]; intros q Hs Hl.
      - simpl in Hl. injection Hl as ->. repeat constructor. lia.
      - rewrite last_cons_cons in Hl.
        apply StronglySorted_inv in Hs as [Hs Hq].
        specialize (IH r Hs Hl). constructor; [|done].
        apply Forall_cons in Hq as [Hqr _]. apply Forall_cons in IH as [Hr _]. lia. }
    rewrite Forall_forall in *. intros r Hr.
    specialize (Hle r Hr). specialize (Hup r Hr). lia.
  - intros Hall. rewrite Forall_forall in Hall. symmetry. apply Hall.
    apply last_Some_elem_of in Hl. done.
Qed.

(** ** Applying to a path list *)

Lemma SoPathList_get_first (l : SoPathList) p :
  l !! 0%nat = Some p -> SoPathList_get l 0 = Returns p.
Proof.
  intros Hp. unfold SoPathList_get.
  change (0 <? 0) with false. change (Z.to_nat 0) with 0%nat. cbv iota.
  by rewrite Hp.
Qed.

Lemma SoPathList_get_last (l : SoPathList) p :
  last l = Some p -> SoPathList_get l (SoPathList_getLength l - 1) = Returns p.
Proof.
  intros Hp. unfold SoPathList_get, SoPathList_getLength.
  destruct l as [|q l]; [done|].
  rewrite last_lookup in Hp. simpl length in *. simpl pred in Hp.
  destruct (Z.ltb_spec (Z.of_nat (S (length l)) - 1) 0); [lia|].
  replace (Z.to_nat (Z.of_nat (S (length l)) - 1)) with (length l) by lia.
  by rewrite Hp.
Qed.

Lemma exec_fmap_bind {A B : Type} (f : A -> B) (m : exec A) :
  m ≫= (fun a => mret (f a)) = f <$> m.
Proof. by destruct m. Qed.

Lemma run_head_passes_terminated (groups : list SoPathList) (a : SoAction) :
  hasTerminated a = true -> run_head_passes groups a = Returns a.
Proof. intros Ht. destruct groups; simpl; [done|]. by rewrite Ht. Qed.

Lemma apply_pathlist_start (a : SoAction) methods (pathlist : SoPathList) p0 obeysrules :
  traversalMethods a = Some methods ->
  pathlist !! 0%nat = Some p0 ->
  apply_pathlist pathlist obeysrules a
  = restore_applied (appliedcode a) (currentpathcode a) (applieddata a) <$>
      (let a0 := pathlist_configured pathlist p0 methods a in
       if obeysrules then
         beginTraversal (getHead p0)
           (set_currentpath (setHead (getHead p0) (currentpath a0)) a0)
         ≫= endTraversal (getHead p0)
       else
         let sortedlist := uniquify (sort pathlist) in
         let num := SoPathList_getLength sortedlist in
         s0 ← SoPathList_get sortedlist 0;
         sl ← SoPathList_get sortedlist (num - 1);
         if decide (getHead s0 = getHead sl) then
           beginTraversal (getHead s0)
             (set_applieddata (write_pathlist (Some sortedlist) (applieddata a0))
                (set_currentpath (setHead (getHead s0) (currentpath a0)) a0))
           ≫= endTraversal (getHead s0)
         else head_passes (S (length sortedlist)) sortedlist num 0 [] a0).
Proof.
  intros Htm Hp0. unfold apply_pathlist, setUp_methods. rewrite Htm. simpl.
  case_decide as Hlen.
  { destruct pathlist; [done|]. unfold SoPathList_getLength in Hlen. simpl in Hlen. lia. }
  rewrite (SoPathList_get_first _ _ Hp0). simpl.
  rewrite exec_fmap_bind. done.
Qed.

Lemma apply_pathlist_unsorted (a : SoAction) methods (pathlist : SoPathList) p0 :
  traversalMethods a = Some methods ->
  pathlist !! 0%nat = Some p0 ->
  let sortedlist := uniquify (sort pathlist) in
  let a0 := pathlist_configured pathlist p0 methods a in
  let finish := restore_applied (appliedcode a) (currentpathcode a) (applieddata a) in
  exists s0,
    sortedlist !! 0%nat = Some s0
    /\ (Forall (fun p => getHead p = getHead s0) sortedlist ->
        apply_pathlist pathlist false a
        = finish <$>
            (beginTraversal (getHead s0)
               (set_applieddata
                  (data_pathlistdata (Some sortedlist) (Some pathlist))
                  (set_currentpath [(getHead s0, -1)] a0))
             ≫= endTraversal (getHead s0)))
    /\ (~ Forall (fun p => getHead p = getHead s0) sortedlist ->
        apply_pathlist pathlist false a
        = finish <$> run_head_passes (group_heads sortedlist) a0).
Proof.
  intros Htm Hp0 sortedlist a0 finish.
  assert (pathlist <> []) as Hne by (by destruct pathlist).
  pose proof (normalized_nonempty pathlist Hne) as Hnl.
  pose proof (head_sorted _ (normalized_sorted pathlist)) as Hheads.
  fold sortedlist in Hnl, Hheads.
  destruct sortedlist as [|s0 rest] eqn:Hsl; [done|].
  destruct (last (s0 :: rest)) as [sl|] eqn:Hlast;
    [|by apply last_None in Hlast].
  exists s0. split; [done|].
  pose proof (one_head_first_last (s0 :: rest) s0 sl Hheads eq_refl Hlast) as Hone.
  pose proof (apply_pathlist_start a methods pathlist p0 false Htm Hp0) as Hstart.
  cbv zeta in Hstart. fold sortedlist in Hstart. rewrite Hsl in Hstart.
  rewrite (SoPathList_get_first (s0 :: rest) s0 eq_refl) in Hstart.
  rewrite (SoPathList_get_last (s0 :: rest) sl Hlast) in Hstart.
  simpl in Hstart. fold a0 in Hstart. fold finish in Hstart.
  split; intros Hall.
  - rewrite Hstart. case_decide as Hd; [done|]. by apply Hone in Hall.
  - rewrite Hstart. case_decide as Hd; [by apply Hone in Hd|].
    f_equal. unfold SoPathList_getLength.
    apply (head_passes_groups (S (length (s0 :: rest))) [] (s0 :: rest) a0). lia.
Qed.

(** C7: called with [obeysrules] false, [apply] traverses over the sorted
    and uniquified copy of the list it was given (the list itself stays
    the original path list applied to).  When all paths of that copy share
    one head, one traversal ([beginTraversal], then [endTraversal]) runs
    from that head with the copy as the applied list.  Otherwise the copy
    splits into its head groups, each holding all the paths of the copy
    with one head, the heads strictly ascending, and one traversal is
    started per group in that order; no group is started once the action
    has terminated. *)
Theorem apply_pathlist_normalized (a : SoAction) methods (pathlist : SoPathList) p0 :
  traversalMethods a = Some methods ->
  pathlist !! 0%nat = Some p0 ->
  let sortedlist := uniquify (sort pathlist) in
  let a0 := pathlist_configured pathlist p0 methods a in
  let finish := restore_applied (appliedcode a) (currentpathcode a) (applieddata a) in
  (sort pathlist ≡ₚ pathlist
   /\ StronglySorted path_le (sort pathlist)
   /\ sortedlist `sublist_of` sort pathlist
   /\ StronglySorted path_le sortedlist)
  /\ (exists s0,
        sortedlist !! 0%nat = Some s0
        /\ (Forall (fun p => getHead p = getHead s0) sortedlist ->
            apply_pathlist pathlist false a
            = finish <$>
                (beginTraversal (getHead s0)
                   (set_applieddata
                      (data_pathlistdata (Some sortedlist) (Some pathlist))
                      (set_currentpath [(getHead s0, -1)] a0))
                 ≫= endTraversal (getHead s0)))
        /\ (~ Forall (fun p => getHead p = getHead s0) sortedlist ->
            apply_pathlist pathlist false a
            = finish <$> run_head_passes (group_heads sortedlist) a0))
  /\ (concat (group_heads sortedlist) = sortedlist
      /\ StronglySorted Z.lt (map group_head (group_heads sortedlist))
      /\ forall g, g ∈ group_heads sortedlist ->
           g <> [] /\ g = paths_from (group_head g) sortedlist)
  /\ (forall groups b,
        hasTerminated b = true -> run_head_passes groups b = Returns b)
  /\ (forall g groups b,
        hasTerminated b = false ->
        run_head_passes (g :: groups) b = head_pass g b ≫= run_head_passes groups).
Proof.
  intros Htm Hp0 sortedlist a0 finish.
  pose proof (normalized_sorted pathlist) as Hsorted.
  pose proof (head_sorted _ Hsorted) as Hheads.
  fold sortedlist in Hsorted, Hheads.
  split; [|split; [|split; [|split]]].
  - repeat split; [apply sort_permutation | apply sort_sorted
                   | apply uniquify_sublist | done].
  - apply (apply_pathlist_unsorted a methods pathlist p0 Htm Hp0).
  - split; [apply group_heads_concat|]. split; [by apply group_heads_ascending|].
    intros g Hg. pose proof (group_heads_shape sortedlist) as Hshape.
    split.
    + rewrite Forall_forall in Hshape. by destruct (Hshape g Hg).
    + rewrite <- (group_heads_concat sortedlist) at 1. symmetry.
      apply paths_from_groups; [done| |done]. by apply group_heads_ascending.
  - intros groups b. apply run_head_passes_terminated.
  - intros g groups b Hb. simpl. by rewrite Hb.
Qed.

(** ** The seed of the path code *)

Lemma head_pass_unfold (g : SoPathList) t0 (b : SoAction) :
  g !! 0%nat = Some t0 ->
  head_pass g b
  = beginTraversal (getHead t0)
      (set_currentpath [(getHead t0, -1)]
         (set_currentpathcode (seed_code t0)
            (set_appliedcode PATH_LIST
               (set_applieddata (write_pathlist (Some g) (applieddata b)) b)))).
Proof.
  intros Ht0. unfold head_pass. by rewrite (SoPathList_get_first g t0 Ht0).
Qed.

Lemma pathlist_configured_code pathlist p0 methods (a : SoAction) :
  currentpathcode (pathlist_configured pathlist p0 methods a) = seed_code p0.
Proof. done. Qed.


(** ** What [apply] saves and restores *)

Lemma restore_applied_restored (a b : SoAction) :
  applied_restored a
    (restore_applied (appliedcode a) (currentpathcode a) (applieddata a) b).
Proof. by repeat split. Qed.

Lemma exec_fmap_returns {A B : Type} (f : A -> B) (m : exec A) b :
  f <$> m = Returns b -> exists a, m = Returns a /\ b = f a.
Proof. destruct m as [a|]; [|done]. intros [= <-]. eauto. Qed.

Lemma apply_node_unfold (a : SoAction) methods root :
  traversalMethods a = Some methods ->
  apply_node root a
  = restore_applied (appliedcode a) (currentpathcode a) (applieddata a) <$>
      (let a0 := set_appliedcode NODE
                   (set_applieddata (data_node root)
                     (set_currentpathcode NO_PATH
                       (set_terminated false
                         (set_traversalMethods
                            (Some (SoActionMethodList_setUp methods)) a)))) in
       if decide (root ≠ NULL) then
         a1 ← beginTraversal root
                (fst (getState (set_currentpath (setHead root (currentpath a0)) a0)));
         a2 ← endTraversal root a1;
         mret (set_applieddata (data_node NULL) a2)
       else mret a0).
Proof.
  intros Htm. unfold apply_node, setUp_methods. rewrite Htm. simpl.
  by rewrite exec_fmap_bind.
Qed.

Lemma apply_path_unfold (a : SoAction) methods path :
  traversalMethods a = Some methods ->
  apply_path (Some path) a
  = restore_applied (appliedcode a) (currentpathcode a) (applieddata a) <$>
      (let a0 := fst (getState
                   (set_appliedcode PATH
                     (set_applieddata (data_path (Some path))
                       (set_currentpathcode (seed_code path)
                         (set_terminated false
                           (set_traversalMethods
                              (Some (SoActionMethodList_setUp methods)) a)))))) in
       if decide (getLength path ≠ 0) then
         node ← getNode path 0;
         if decide (node ≠ NULL) then
           beginTraversal node (set_currentpath (setHead node (currentpath a0)) a0)
           ≫= endTraversal node
         else mret a0
       else mret a0).
Proof.
  intros Htm. unfold apply_path, setUp_methods. rewrite Htm. simpl.
  by rewrite exec_fmap_bind.
Qed.

Lemma apply_node_restored (a a' : SoAction) root :
  apply_node root a = Returns a' -> applied_restored a a'.
Proof.
  intros Hr. destruct (traversalMethods a) as [methods|] eqn:Htm.
  - rewrite (apply_node_unfold a methods root Htm) in Hr.
    apply exec_fmap_returns in Hr as (b & _ & ->). apply restore_applied_restored.
  - unfold apply_node, setUp_methods in Hr. by rewrite Htm in Hr.
Qed.

Lemma apply_path_restored (a a' : SoAction) path :
  apply_path path a = Returns a' -> applied_restored a a'.
Proof.
  intros Hr. destruct (traversalMethods a) as [methods|] eqn:Htm.
  - destruct path as [path|].
    + rewrite (apply_path_unfold a methods path Htm) in Hr.
      apply exec_fmap_returns in Hr as (b & _ & ->). apply restore_applied_restored.
    + unfold apply_path, setUp_methods in Hr. by rewrite Htm in Hr.
  - unfold apply_path, setUp_methods in Hr. by rewrite Htm in Hr.
Qed.

Lemma apply_pathlist_empty (a : SoAction) obeysrules :
  apply_pathlist [] obeysrules a = setUp_methods a.
Proof.
  unfold apply_pathlist. by destruct (setUp_methods a) as [a0|].
Qed.

Lemma apply_pathlist_restored (a a' : SoAction) pathlist obeysrules :
  apply_pathlist pathlist obeysrules a = Returns a' -> applied_restored a a'.
Proof.
  intros Hr. destruct (traversalMethods a) as [methods|] eqn:Htm.
  - destruct pathlist as [|p0 pathlist].
    + rewrite apply_pathlist_empty in Hr. unfold setUp_methods in Hr.
      rewrite Htm in Hr. injection Hr as <-. by repeat split.
    + rewrite (apply_pathlist_start a methods (p0 :: pathlist) p0 obeysrules Htm eq_refl) in Hr.
      apply exec_fmap_returns in Hr as (b & _ & ->). apply restore_applied_restored.
  - unfold apply_pathlist, setUp_methods in Hr. by rewrite Htm in Hr.
Qed.

(** ** [apply] returns *)

Lemma returns_fmap {A B : Type} (f : A -> B) (m : exec A) :
  returns m -> returns (f <$> m).
Proof. by destruct m. Qed.

Lemma returns_inv {A : Type} (m : exec A) : returns m -> exists a, m = Returns a.
Proof. destruct m; [eauto|done]. Qed.

Lemma apply_node_returns (a : SoAction) methods root :
  traversalMethods a = Some methods ->
  always_returns beginTraversal -> always_returns endTraversal ->
  returns (apply_node root a).
Proof.
  intros Htm Hb He. rewrite (apply_node_unfold a methods root Htm).
  apply returns_fmap. cbv zeta. case_decide; [|done].
  match goal with |- context [beginTraversal ?n ?b] =>
    destruct (returns_inv _ (Hb n b)) as [a1 ->] end. simpl.
  destruct (returns_inv _ (He root a1)) as [a2 ->]. done.
Qed.

Lemma getNode_head (path : SoPath) :
  getLength path <> 0 -> getNode path 0 = Returns (getHead path).
Proof. destruct path as [|e path]; [done|]. intros _. done. Qed.

Lemma apply_path_returns (a : SoAction) methods path :
  traversalMethods a = Some methods ->
  always_returns beginTraversal -> always_returns endTraversal ->
  returns (apply_path (Some path) a).
Proof.
  intros Htm Hb He. rewrite (apply_path_unfold a methods path Htm).
  apply returns_fmap. cbv zeta. case_decide as Hlen; [|done].
  rewrite (getNode_head path Hlen). simpl. case_decide; [|done].
  match goal with |- context [beginTraversal ?n ?b] =>
    destruct (returns_inv _ (Hb n b)) as [a1 ->] end. simpl.
  apply He.
Qed.

Lemma run_head_passes_returns (groups : list SoPathList) (a : SoAction) :
  Forall (fun g => g <> []) groups ->
  always_returns beginTraversal ->
  returns (run_head_passes groups a).
Proof.
  intros Hne Hb. revert a. induction Hne as [|g groups Hg _ IH]; intros a; [done|].
  simpl. destruct (hasTerminated a); [done|].
  unfold head_pass. destruct g as [|t0 g]; [done|].
  rewrite (SoPathList_get_first (t0 :: g) t0 eq_refl). simpl.
  match goal with |- context [beginTraversal ?n ?b] =>
    destruct (returns_inv _ (Hb n b)) as [a1 ->] end. simpl.
  apply IH.
Qed.

Lemma group_heads_nonempty (l : SoPathList) :
  Forall (fun g => g <> []) (group_heads l).
Proof.
  eapply Forall_impl; [apply group_heads_shape|]. by intros g [? _].
Qed.

Lemma apply_pathlist_returns (a : SoAction) methods pathlist obeysrules :
  traversalMethods a = Some methods ->
  always_returns beginTraversal -> always_returns endTraversal ->
  returns (apply_pathlist pathlist obeysrules a).
Proof.
  intros Htm Hb He. destruct pathlist as [|p0 pathlist].
  { rewrite apply_pathlist_empty. unfold setUp_methods. by rewrite Htm. }
  rewrite (apply_pathlist_start a methods (p0 :: pathlist) p0 obeysrules Htm eq_refl).
  apply returns_fmap. cbv zeta. destruct obeysrules.
  - match goal with |- context [beginTraversal ?n ?b] =>
      destruct (returns_inv _ (Hb n b)) as [a1 ->] end. simpl. apply He.
  - pose proof (normalized_nonempty (p0 :: pathlist)) as Hne.
    destruct (uniquify (sort (p0 :: pathlist))) as [|s0 rest] eqn:Hsl; [by apply Hne|].
    destruct (last (s0 :: rest)) as [sl|] eqn:Hlast; [|by apply last_None in Hlast].
    rewrite (SoPathList_get_first (s0 :: rest) s0 eq_refl).
    rewrite (SoPathList_get_last (s0 :: rest) sl Hlast).
    unfold mbind, exec_mbind. cbn [exec_bind].
    case_decide.
    + match goal with |- context [beginTraversal ?n ?b] =>
        destruct (returns_inv _ (Hb n b)) as [a1 ->] end. simpl. apply He.
    + unfold SoPathList_getLength.
      rewrite (head_passes_groups (S (length (s0 :: rest))) [] (s0 :: rest)); [|lia].
      apply run_head_passes_returns; [apply group_heads_nonempty | done].
Qed.

(** C4: every [apply] overload returns with the applied code, the applied
    data and the current path code it was entered with, whatever the
    traversal in between did to them, and also when it leaves early on an
    empty path list or a null root; a nested [apply] issued by an action
    method therefore hands the outer traversal its three fields back. *)
Theorem apply_restores_applied (a : SoAction) methods :
  traversalMethods a = Some methods ->
  always_returns beginTraversal ->
  always_returns endTraversal ->
  (forall root, exists a', apply_node root a = Returns a' /\ applied_restored a a')
  /\ (forall path, exists a',
        apply_path (Some path) a = Returns a' /\ applied_restored a a')
  /\ (forall pathlist obeysrules, exists a',
        apply_pathlist pathlist obeysrules a = Returns a' /\ applied_restored a a')
  /\ (forall b b' root, apply_node root b = Returns b' -> applied_restored b b')
  /\ (forall b b' path, apply_path path b = Returns b' -> applied_restored b b')
  /\ (forall b b' pathlist obeysrules,
        apply_pathlist pathlist obeysrules b = Returns b' -> applied_restored b b').
Proof.
  intros Htm Hb He. split; [|split; [|split; [|split; [|split]]]].
  - intros root.
    destruct (returns_inv _ (apply_node_returns a methods root Htm Hb He)) as [a' Ha].
    exists a'. split; [done|]. by apply (apply_node_restored a a' root).
  - intros path.
    destruct (returns_inv _ (apply_path_returns a methods path Htm Hb He)) as [a' Ha].
    exists a'. split; [done|]. by apply (apply_path_restored a a' (Some path)).
  - intros pathlist obeysrules.
    destruct (returns_inv _
      (apply_pathlist_returns a methods pathlist obeysrules Htm Hb He)) as [a' Ha].
    exists a'. split; [done|]. by apply (apply_pathlist_restored a a' pathlist obeysrules).
  - intros b b' root Hr. by apply (apply_node_restored b b' root).
  - intros b b' path Hr. by apply (apply_path_restored b b' path).
  - intros b b' pathlist obeysrules Hr.
    by apply (apply_pathlist_restored b b' pathlist obeysrules).
Qed.




(** ** The termination flag across [apply] *)

Lemma restore_applied_terminated c p d (a : SoAction) :
  terminated (restore_applied c p d a) = terminated a.
Proof. done. Qed.

Lemma getState_terminated (a : SoAction) :
  terminated (fst (getState a)) = terminated a.
Proof. unfold getState. by destruct (state a). Qed.


Lemma apply_node_flag (a a' : SoAction) root :
  (forall node, keeps_running (beginTraversal node)) ->
  (forall node, keeps_running (endTraversal node)) ->
  apply_node root a = Returns a' -> hasTerminated a' = false.
Proof.
  intros Hb He Hr. destruct (traversalMethods a) as [methods|] eqn:Htm;
    [|unfold apply_node, setUp_methods in Hr; by rewrite Htm in Hr].
  rewrite (apply_node_unfold a methods root Htm) in Hr.
  apply exec_fmap_returns in Hr as (b & Hr & ->). cbv zeta in Hr.
  unfold hasTerminated. rewrite restore_applied_terminated.
  case_decide; [|by injection Hr as <-].
  exec_inv Hr. exec_inv Hr. injection Hr as <-. simpl.
  apply (He root x x0 Hx0). apply (Hb root _ x Hx).
  by rewrite getState_terminated.
Qed.

Lemma apply_path_flag (a a' : SoAction) path :
  (forall node, keeps_running (beginTraversal node)) ->
  (forall node, keeps_running (endTraversal node)) ->
  apply_path path a = Returns a' -> hasTerminated a' = false.
Proof.
  intros Hb He Hr. destruct (traversalMethods a) as [methods|] eqn:Htm;
    [|unfold apply_path, setUp_methods in Hr; by rewrite Htm in Hr].
  destruct path as [path|];
    [|unfold apply_path, setUp_methods in Hr; by rewrite Htm in Hr].
  rewrite (apply_path_unfold a methods path Htm) in Hr.
  apply exec_fmap_returns in Hr as (b & Hr & ->). cbv zeta in Hr.
  unfold hasTerminated. rewrite restore_applied_terminated.
  case_decide; [|injection Hr as <-; by rewrite getState_terminated].
  exec_inv Hr.
  case_decide; [|injection Hr as <-; by rewrite getState_terminated].
  exec_inv Hr.
  apply (He x x0 b Hr). apply (Hb x _ x0 Hx0). simpl.
  by rewrite getState_terminated.
Qed.

Lemma run_head_passes_flag (groups : list SoPathList) (a a' : SoAction) :
  (forall node, keeps_running (beginTraversal node)) ->
  terminated a = false ->
  run_head_passes groups a = Returns a' -> terminated a' = false.
Proof.
  intros Hb. revert a. induction groups as [|g groups IH]; intros a Ha Hr.
  - by injection Hr as <-.
  - simpl in Hr. unfold hasTerminated in Hr. rewrite Ha in Hr.
    exec_inv Hr. apply (IH x); [|done].
    unfold head_pass in Hx. exec_inv Hx.
    by apply (Hb _ _ x Hx).
Qed.

Lemma pathlist_configured_terminated pathlist p0 methods (a : SoAction) :
  terminated (pathlist_configured pathlist p0 methods a) = false.
Proof. unfold pathlist_configured. simpl. by rewrite getState_terminated. Qed.

Lemma apply_pathlist_flag (a a' : SoAction) pathlist obeysrules :
  (forall node, keeps_running (beginTraversal node)) ->
  (forall node, keeps_running (endTraversal node)) ->
  pathlist <> [] ->
  apply_pathlist pathlist obeysrules a = Returns a' -> hasTerminated a' = false.
Proof.
  intros Hb He Hne Hr. destruct (traversalMethods a) as [methods|] eqn:Htm;
    [|unfold apply_pathlist, setUp_methods in Hr; by rewrite Htm in Hr].
  destruct pathlist as [|p0 pathlist]; [done|].
  rewrite (apply_pathlist_start a methods (p0 :: pathlist) p0 obeysrules Htm eq_refl) in Hr.
  apply exec_fmap_returns in Hr as (b & Hr & ->). cbv zeta in Hr.
  unfold hasTerminated. rewrite restore_applied_terminated.
  pose proof (pathlist_configured_terminated (p0 :: pathlist) p0 methods a) as Hconf.
  destruct obeysrules.
  - exec_inv Hr. apply (He _ x b Hr). by apply (Hb _ _ x Hx).
  - exec_inv Hr. exec_inv Hr. case_decide.
    + exec_inv Hr. apply (He _ x1 b Hr). by apply (Hb _ _ x1 Hx1).
    + unfold SoPathList_getLength in Hr.
      rewrite (head_passes_groups (S (length (uniquify (sort (p0 :: pathlist))))) []
                 (uniquify (sort (p0 :: pathlist)))) in Hr; [|lia].
      by apply (run_head_passes_flag _ _ b Hb Hconf Hr).
Qed.

(** C5, as the code has it: [apply] on a node, on a path and on a path
    list that is not empty clears the termination flag before the
    traversal, so that [hasTerminated] is false afterwards unless an
    action method set it; [apply] on an empty path list returns right after
    setting up the dispatch table and leaves the flag as it found it. *)
Theorem apply_clears_terminated (a : SoAction) methods :
  traversalMethods a = Some methods ->
  always_returns beginTraversal ->
  always_returns endTraversal ->
  (forall node, keeps_running (beginTraversal node)) ->
  (forall node, keeps_running (endTraversal node)) ->
  (forall root, exists a',
     apply_node root a = Returns a' /\ hasTerminated a' = false)
  /\ (forall path, exists a',
        apply_path (Some path) a = Returns a' /\ hasTerminated a' = false)
  /\ (forall pathlist obeysrules, pathlist <> [] -> exists a',
        apply_pathlist pathlist obeysrules a = Returns a'
        /\ hasTerminated a' = false)
  /\ (forall obeysrules,
        apply_pathlist [] obeysrules a
        = Returns (set_traversalMethods
                     (Some (SoActionMethodList_setUp methods)) a)
        /\ hasTerminated
             (set_traversalMethods (Some (SoActionMethodList_setUp methods)) a)
           = hasTerminated a).
Proof.
  intros Htm Hbr Her Hb He. split; [|split; [|split]].
  - intros root.
    destruct (returns_inv _ (apply_node_returns a methods root Htm Hbr Her)) as [a' Ha].
    exists a'. split; [done|]. by apply (apply_node_flag a a' root).
  - intros path.
    destruct (returns_inv _ (apply_path_returns a methods path Htm Hbr Her)) as [a' Ha].
    exists a'. split; [done|]. by apply (apply_path_flag a a' (Some path)).
  - intros pathlist obeysrules Hne.
    destruct (returns_inv _
      (apply_pathlist_returns a methods pathlist obeysrules Htm Hbr Her)) as [a' Ha].
    exists a'. split; [done|]. by apply (apply_pathlist_flag a a' pathlist obeysrules).
  - intros obeysrules. rewrite apply_pathlist_empty. unfold setUp_methods.
    by rewrite Htm.
Qed.

(** ** Applying to a null target *)

Lemma apply_path_null (a : SoAction) : apply_path None a = Undefined.
Proof. unfold apply_path. by destruct (setUp_methods a). Qed.

(** C6, as the code has it: [apply] on a null node starts no traversal
    (neither traversal hook is called, the state is not created, the
    current path is not touched) and returns with the applied code, the
    applied data and the path code it was entered with; like every
    [apply] it has set up the dispatch table and cleared the termination
    flag. *)
Theorem apply_null_node (a : SoAction) methods :
  traversalMethods a = Some methods ->
  apply_node NULL a
  = Returns (set_terminated false
               (set_traversalMethods (Some (SoActionMethodList_setUp methods)) a))
  /\ (forall a', apply_node NULL a = Returns a' ->
        state a' = state a
        /\ currentpath a' = currentpath a
        /\ pathcodearray a' = pathcodearray a
        /\ applied_restored a a'
        /\ hasTerminated a' = false).
Proof.
  intros Htm.
  assert (apply_node NULL a
          = Returns (set_terminated false
               (set_traversalMethods (Some (SoActionMethodList_setUp methods)) a)))
    as Hrun.
  { rewrite (apply_node_unfold a methods NULL Htm). cbv zeta.
    case_decide; [done|]. by destruct a. }
  split; [done|]. intros a' Ha'. rewrite Hrun in Ha'. injection Ha' as <-.
  by repeat split.
Qed.

(** ** Switching traversal *)

Lemma restore_switched_fields (a b : SoAction) :
  appliedcode (restore_switched a b) = appliedcode a
  /\ applieddata (restore_switched a b) = applieddata a
  /\ currentpathcode (restore_switched a b) = currentpathcode a
  /\ currentpath (restore_switched a b) = currentpath a
  /\ state (restore_switched a b) = state b
  /\ traversalMethods (restore_switched a b) = traversalMethods b
  /\ terminated (restore_switched a b) = terminated b
  /\ pathcodearray (restore_switched a b) = pathcodearray b.
Proof. by repeat split. Qed.

Lemma switchToPathTraversal_unfold (a : SoAction) methods (path : SoPath) node :
  traversalMethods a = Some methods ->
  getNode path 0 = Returns node ->
  node <> NULL ->
  switchToPathTraversal (Some path) a
  = restore_switched a <$>
      actionMethod methods node
        (set_currentpathcode IN_PATH
           (set_applieddata (data_path (Some path)) (set_appliedcode PATH a))).
Proof.
  intros Htm Hnode Hnn. unfold switchToPathTraversal, traverse. simpl.
  rewrite Hnode, Htm. simpl. case_decide; [done|].
  by rewrite exec_fmap_bind.
Qed.

Lemma switchToNodeTraversal_unfold (a : SoAction) methods node :
  traversalMethods a = Some methods ->
  node <> NULL ->
  switchToNodeTraversal node a
  = restore_switched a <$>
      actionMethod methods node
        (set_currentpath []
           (set_currentpathcode NO_PATH
              (set_applieddata (data_node node) (set_appliedcode NODE a)))).
Proof.
  intros Htm Hnn. unfold switchToNodeTraversal, traverse. simpl.
  rewrite Htm. simpl. case_decide; [done|].
  by rewrite exec_fmap_bind.
Qed.

(** C9: [switchToPathTraversal] and [switchToNodeTraversal] configure the
    action for the new target (applied code, applied data, path code; the
    node variant also empties the current path), dispatch the action
    method of the target's head directly, and rebuild the applied code,
    the applied data, the path code and the current path of the
    interrupted traversal on what the method returns; [beginTraversal]
    and [endTraversal] take no part in it. *)
Theorem switch_traversal_restores (a : SoAction) methods (path : SoPath) head node :
  traversalMethods a = Some methods ->
  getNode path 0 = Returns head ->
  head <> NULL ->
  node <> NULL ->
  (switchToPathTraversal (Some path) a
   = restore_switched a <$>
       actionMethod methods head
         (set_currentpathcode IN_PATH
            (set_applieddata (data_path (Some path)) (set_appliedcode PATH a))))
  /\ (switchToNodeTraversal node a
      = restore_switched a <$>
          actionMethod methods node
            (set_currentpath []
               (set_currentpathcode NO_PATH
                  (set_applieddata (data_node node) (set_appliedcode NODE a)))))
  /\ (forall a',
        switchToPathTraversal (Some path) a = Returns a'
        \/ switchToNodeTraversal node a = Returns a' ->
        appliedcode a' = appliedcode a
        /\ applieddata a' = applieddata a
        /\ currentpathcode a' = currentpathcode a
        /\ currentpath a' = currentpath a)
  /\ (forall M' : Methods,
        @actionMethod C M' = @actionMethod C M ->
        @switchToPathTraversal C M' (Some path) a = switchToPathTraversal (Some path) a
        /\ @switchToNodeTraversal C M' node a = switchToNodeTraversal node a).
Proof.
  intros Htm Hhead Hnn Hnode.
  pose proof (switchToPathTraversal_unfold a methods path head Htm Hhead Hnn) as Hp.
  pose proof (switchToNodeTraversal_unfold a methods node Htm Hnode) as Hn.
  split; [done|]. split; [done|]. split.
  - intros a' [Hr|Hr]; [rewrite Hp in Hr|rewrite Hn in Hr];
      apply exec_fmap_returns in Hr as (b & _ & ->); by repeat split.
  - intros M' Hsame. unfold switchToPathTraversal, switchToNodeTraversal, traverse.
    by rewrite Hsame.
Qed.

(** ** The applied-to accessors *)

Lemma SoAction_new_coherent : coherent SoAction_new.
Proof. done. Qed.

Lemma applied_restored_coherent (a a' : SoAction) :
  applied_restored a a' -> coherent a -> coherent a'.
Proof. intros (Hc & Hd & _). unfold coherent. by rewrite Hc, Hd. Qed.

Lemma pathlist_configured_coherent pathlist p0 methods (a : SoAction) :
  coherent (pathlist_configured pathlist p0 methods a).
Proof. done. Qed.

(** The kernel writes the applied code and the matching member of the
    applied data together: every state it configures before it calls a
    hook or an action method is coherent, and the path-code operations do
    not touch the two fields. *)
Lemma configured_coherent (a b : SoAction) methods root path pathlist p0 sortedlist
    group t0 node :
  coherent (set_appliedcode NODE (set_applieddata (data_node root) a))
  /\ coherent (set_appliedcode PATH (set_applieddata (data_path path) a))
  /\ coherent (pathlist_configured pathlist p0 methods a)
  /\ coherent (set_applieddata
                 (write_pathlist (Some sortedlist)
                    (applieddata (pathlist_configured pathlist p0 methods a)))
                 (pathlist_configured pathlist p0 methods a))
  /\ coherent (set_currentpathcode (seed_code t0)
                 (set_appliedcode PATH_LIST
                    (set_applieddata (write_pathlist (Some group) (applieddata b)) b)))
  /\ coherent (set_currentpathcode IN_PATH
                 (set_applieddata (data_path path) (set_appliedcode PATH a)))
  /\ coherent (set_currentpathcode NO_PATH
                 (set_applieddata (data_node node) (set_appliedcode NODE a))).
Proof. repeat split; unfold coherent; simpl; by destruct (applieddata b). Qed.

Lemma pushCurPath_coherent (a a' : SoAction) childindex node :
  pushCurPath childindex node a = Returns a' -> coherent a -> coherent a'.
Proof.
  unfold pushCurPath. intros Hr Hc. exec_inv Hr.
  assert (forall b : SoAction,
            appliedcode b = appliedcode a -> applieddata b = applieddata a ->
            coherent b) as Hsame.
  { intros b Hcode Hdata. unfold coherent. by rewrite Hcode, Hdata. }
  repeat case_decide; repeat exec_inv Hr;
    try (destruct (_ <=? _); [|done]); repeat exec_inv Hr;
    try (destruct (search_containing _ _ _ _ _));
    repeat case_decide; try discriminate; injection Hr as <-; by apply Hsame.
Qed.

Lemma getPathCode_coherent (a a' : SoAction) args args' code :
  getPathCode args a = Returns (a', args', code) -> coherent a -> coherent a'.
Proof.
  unfold getPathCode, usePathCode. intros Hr Hc.
  case_decide; [|by injection Hr as <- _ _].
  exec_inv Hr. destruct x as [b args'']. injection Hr as <- _ _.
  destruct (_ <? _); [done|].
  case_decide; repeat exec_inv Hx; injection Hx as <- _; exact Hc.
Qed.


(** C10: in every action state whose applied code names the member of the
    applied data written last (the state the constructor builds and every
    state the kernel hands on), the applied-to accessors agree with the
    applied code: the node accessor returns the stored node when the code
    is [NODE] and null otherwise, the path accessor the stored path when
    it is [PATH] and null otherwise, and the two path-list accessors the
    stored reorganized and original lists when it is [PATH_LIST] and null
    otherwise. *)
Theorem applied_to_accessors (a : SoAction) :
  coherent a ->
  (getWhatAppliedTo a = NODE ->
     exists node, applieddata a = data_node node
       /\ getNodeAppliedTo a = Returns node)
  /\ (getWhatAppliedTo a <> NODE -> getNodeAppliedTo a = Returns NULL)
  /\ (getWhatAppliedTo a = PATH ->
        exists path, applieddata a = data_path path
          /\ getPathAppliedTo a = Returns path)
  /\ (getWhatAppliedTo a <> PATH -> getPathAppliedTo a = Returns None)
  /\ (getWhatAppliedTo a = PATH_LIST ->
        exists pathlist origpathlist,
          applieddata a = data_pathlistdata pathlist origpathlist
          /\ getPathListAppliedTo a = Returns pathlist
          /\ getOriginalPathListAppliedTo a = Returns origpathlist)
  /\ (getWhatAppliedTo a <> PATH_LIST ->
        getPathListAppliedTo a = Returns None
        /\ getOriginalPathListAppliedTo a = Returns None).
Proof.
  unfold coherent, getWhatAppliedTo, getNodeAppliedTo, getPathAppliedTo,
    getPathListAppliedTo, getOriginalPathListAppliedTo.
  intros Hc.
  destruct (appliedcode a), (applieddata a); try done;
    repeat split; intros; try done; repeat case_decide; try done; eauto.
Qed.

(** ** The indices below the current path *)

Lemma continues_spec (cur path : SoPath) :
  continues cur path = true
  <-> getFullLength cur < getFullLength path /\ cur `prefix_of` path.
Proof.
  unfold continues. rewrite andb_true_iff, containsPath_prefix.
  destruct (Z.gtb_spec (getFullLength path) (getFullLength cur)); split;
    intros [? ?]; split; try done; lia.
Qed.

Lemma continues_split (cur path : SoPath) :
  continues cur path = true ->
  exists e rest, path = cur ++ e :: rest /\ path !! length cur = Some e.
Proof.
  rewrite continues_spec. intros [Hlen [k ->]].
  unfold getFullLength in Hlen. rewrite length_app in Hlen.
  destruct k as [|e rest]; [simpl in Hlen; lia|].
  exists e, rest. split; [done|]. by rewrite list_lookup_middle.
Qed.

Lemma next_indices_elem_of (cur : SoTempPath) (pl : SoPathList) x :
  x ∈ next_indices cur pl
  <-> exists path e, path ∈ pl /\ continues cur path = true
        /\ path !! length cur = Some e /\ x = snd e.
Proof.
  induction pl as [|p pl IH]; simpl.
  - split; [by intros ?%elem_of_nil|]. by intros (? & ? & ?%elem_of_nil & _).
  - destruct (continues cur p) eqn:Hc.
    + destruct (continues_split cur p Hc) as (e & rest & _ & He). rewrite He.
      rewrite elem_of_cons, IH. split.
      * intros [->|(q & e' & Hq & ?)].
        -- exists p, e. repeat split; try done. apply list_elem_of_here.
        -- exists q, e'. split; [by apply list_elem_of_further|done].
      * intros (q & e' & Hq & Hcq & He' & ->).
        apply elem_of_cons in Hq as [->|Hq]; [left; congruence|].
        right. by exists q, e'.
    + rewrite IH. split.
      * intros (q & e' & Hq & ?). exists q, e'.
        split; [by apply list_elem_of_further|done].
      * intros (q & e' & Hq & Hcq & He' & ->).
        apply elem_of_cons in Hq as [->|Hq]; [congruence|]. by exists q, e'.
Qed.

Lemma collect_indices_spec (cur : SoTempPath) (pl : SoPathList) previdx myarray :
  cur <> [] ->
  collect_indices cur (getFullLength cur) pl previdx myarray
  = Returns (myarray ++ drop_repeats previdx (next_indices cur pl)).
Proof.
  intros Hne. revert previdx myarray.
  induction pl as [|p pl IH]; intros previdx myarray; simpl.
  - by rewrite app_nil_r.
  - fold (continues cur p). destruct (continues cur p) eqn:Hc; [|apply IH].
    destruct (continues_split cur p Hc) as (e & rest & _ & He). rewrite He.
    assert (getIndex p (getFullLength cur) = Returns (snd e)) as ->.
    { apply (getIndex_lookup p (length cur) e); [|done].
      destruct cur; [done|simpl; lia]. }
    simpl. case_decide.
    + rewrite IH. by rewrite <- app_assoc.
    + apply IH.
Qed.




Lemma next_indices_valid (cur : SoTempPath) (pl : SoPathList) :
  cur <> [] -> Forall valid_indices pl ->
  Forall (fun i => 0 <= i) (next_indices cur pl).
Proof.
  intros Hne Hvalid. rewrite Forall_forall. intros x Hx.
  apply next_indices_elem_of in Hx as (q & e & Hq & Hcq & He & ->).
  rewrite Forall_forall in Hvalid. specialize (Hvalid q Hq).
  unfold valid_indices, childIndices in Hvalid. rewrite Forall_forall in Hvalid.
  apply Hvalid. apply list_elem_of_fmap. exists e. split; [done|].
  destruct q as [|h q]; [done|]. destruct cur as [|c cur]; [done|].
  simpl in *. by apply list_elem_of_lookup_2 in He.
Qed.

(** ** [getPathCode] *)

(** The scratch buffers after [usePathCode] has filled the one of the
    current depth. *)
Lemma scratch_slot (a : SoAction) (myarray : list Z) :
  currentpath a <> [] ->
  let curlen := getFullLength (currentpath a) in
  (<[Z.to_nat (curlen - 1) := myarray]>
     (pathcodearray a
      ++ replicate (Z.to_nat curlen - length (pathcodearray a))%nat []))
    !! (length (currentpath a) - 1)%nat = Some myarray.
Proof.
  intros Hne curlen. unfold curlen, getFullLength.
  replace (Z.to_nat (Z.of_nat (length (currentpath a)) - 1))
    with (length (currentpath a) - 1)%nat by lia.
  apply list_lookup_insert_eq. rewrite length_app, length_replicate.
  destruct (currentpath a); [done|simpl; lia].
Qed.

Lemma usePathCode_path_list (a : SoAction) (pl : SoPathList) orig :
  currentpath a <> [] ->
  getWhatAppliedTo a = PATH_LIST ->
  applieddata a = data_pathlistdata (Some pl) orig ->
  exists arr,
    usePathCode a
    = Returns (set_pathcodearray arr a,
               mkIndexArgs
                 (Z.of_nat (length (drop_repeats (-1) (next_indices (currentpath a) pl))))
                 (drop_repeats (-1) (next_indices (currentpath a) pl)))
    /\ arr !! (length (currentpath a) - 1)%nat
       = Some (drop_repeats (-1) (next_indices (currentpath a) pl)).
Proof.
  intros Hne Hwhat Hdata. eexists. split.
  - unfold usePathCode.
    destruct (Z.ltb_spec (getFullLength (currentpath a) - 1) 0) as [Hlt|_].
    { pose proof (getFullLength_pos _ Hne). lia. }
    rewrite Hwhat, Hdata. simpl.
    rewrite (collect_indices_spec _ pl (-1) [] Hne). simpl. reflexivity.
  - by apply scratch_slot.
Qed.

Lemma usePathCode_path (a : SoAction) (path : SoPath) :
  currentpath a <> [] ->
  getWhatAppliedTo a = PATH ->
  applieddata a = data_path (Some path) ->
  getFullLength (currentpath a) < getFullLength path ->
  exists idx arr,
    getIndex path (getFullLength (currentpath a)) = Returns idx
    /\ usePathCode a = Returns (set_pathcodearray arr a, mkIndexArgs 1 [idx])
    /\ arr !! (length (currentpath a) - 1)%nat = Some [idx].
Proof.
  intros Hne Hwhat Hdata Hlen.
  assert (exists e, path !! length (currentpath a) = Some e) as [e He].
  { apply lookup_lt_is_Some. unfold getFullLength in Hlen. lia. }
  assert (getIndex path (getFullLength (currentpath a)) = Returns (snd e)) as Hidx.
  { apply (getIndex_lookup path (length (currentpath a)) e); [|done].
    destruct (currentpath a); [done|simpl; lia]. }
  exists (snd e). eexists. split; [done|]. split.
  - unfold usePathCode.
    destruct (Z.ltb_spec (getFullLength (currentpath a) - 1) 0) as [Hlt|_].
    { pose proof (getFullLength_pos _ Hne). lia. }
    rewrite Hwhat, Hdata. simpl. rewrite Hidx. simpl. reflexivity.
  - by apply scratch_slot.
Qed.

Lemma drop_repeats_sublist prev (l : list Z) : drop_repeats prev l `sublist_of` l.
Proof.
  revert prev. induction l as [|x l IH]; intros prev; simpl; [constructor|].
  case_decide; [by apply sublist_skip | by apply sublist_cons].
Qed.



End KernelFacts.

(** * Further properties of the kernel *)

Section KernelExtras.
Context `{C : Collaborators} {M : Methods}.

(** ** The traversal state *)

(** X1: [getState] creates the state only when there is none and then
    keeps it: the action it leaves holds the state it returns, a second
    call changes nothing, an existing state is returned as it is, and after
    [invalidateState] the next call builds a new one.  No other field of
    the action is touched. *)
Theorem getState_lazy (a : SoAction) :
  state (fst (getState a)) = Some (snd (getState a))
  /\ getState (fst (getState a)) = getState a
  /\ (forall s, state a = Some s -> getState a = (a, s))
  /\ getState (invalidateState a) = (set_state (Some SoState_new) a, SoState_new)
  /\ set_state (state a) (fst (getState a)) = a.
Proof.
  unfold getState, invalidateState. destruct a as [st tm ac ad cp t pc arr]. simpl.
  destruct st as [s|]; simpl; repeat split; try done.
  - by intros s' [= <-].
Qed.

(** ** Editing the current path *)

Lemma pop_append node index (p : SoPath) : pop (append node index p) = p.
Proof. unfold pop, append. apply removelast_last. Qed.

Lemma getTail_append node index (p : SoPath) : getTail (append node index p) = node.
Proof. unfold getTail, append. by rewrite last_snoc. Qed.

Lemma pushCurPath_shape (a a' : SoAction) childindex node :
  pushCurPath childindex node a = Returns a' ->
  exists child,
    append_child childindex node (currentpath a)
    = Returns (append child childindex (currentpath a))
    /\ a' = set_currentpathcode (currentpathcode a')
              (set_currentpath (append child childindex (currentpath a)) a)
    /\ (currentpathcode a' = currentpathcode a
        \/ currentpathcode a = IN_PATH
           /\ (currentpathcode a' = OFF_PATH \/ currentpathcode a' = BELOW_PATH)).
Proof.
  unfold pushCurPath. intros Hr. exec_inv Hr.
  destruct (append_child_shape _ _ _ _ Hx) as [child ->]. exists child.
  split; [done|].
  assert (forall code,
            set_currentpathcode code
              (set_currentpath (append child childindex (currentpath a)) a)
            = set_currentpathcode code
                (set_currentpathcode code
                   (set_currentpath (append child childindex (currentpath a)) a)))
    as Hidem by done.
  case_decide as Hin; [|injection Hr as <-; split; [by destruct a|by left]].
  assert (forall b : SoAction,
            b = set_currentpath (append child childindex (currentpath a)) a ->
            b = set_currentpathcode (currentpathcode b)
                  (set_currentpath (append child childindex (currentpath a)) a)
            /\ (currentpathcode b = currentpathcode a
                \/ currentpathcode a = IN_PATH
                   /\ (currentpathcode b = OFF_PATH
                       \/ currentpathcode b = BELOW_PATH))) as Hkeep.
  { intros b ->. split; [by destruct a|by left]. }
  simpl in Hin.
  case_decide.
  - exec_inv Hr. exec_inv Hr. destruct (_ <=? _); [|done].
    exec_inv Hr. exec_inv Hr.
    repeat case_decide; injection Hr as <-;
      (by apply Hkeep) || (split; [done|right; split; [done|]; by (left + right)]).
  - exec_inv Hr. exec_inv Hr. destruct (search_containing _ _ _ _ _).
    repeat case_decide; injection Hr as <-;
      (by apply Hkeep) || (split; [done|right; split; [done|]; by (left + right)]).
Qed.

(** X2: [pushCurPath] changes nothing but the current path and the path
    code.  The current path grows by one entry carrying [childindex] and
    the child (the node passed or, for a null node, the child the scene
    graph has under the tail), which becomes the tail node.  The path code
    is left alone unless it was [IN_PATH], and from [IN_PATH] it can only
    turn into [OFF_PATH] or [BELOW_PATH]: no push ever produces [IN_PATH]
    or [NO_PATH]. *)
Theorem pushCurPath_frame (a a' : SoAction) childindex node :
  pushCurPath childindex node a = Returns a' ->
  exists child,
    a' = set_currentpathcode (currentpathcode a')
           (set_currentpath (currentpath a ++ [(child, childindex)]) a)
    /\ getCurPathTail a' = child
    /\ (node <> NULL -> child = node)
    /\ (node = NULL ->
        SoNode_getChild (getTail (currentpath a)) childindex = Returns child)
    /\ (currentpathcode a' = currentpathcode a
        \/ currentpathcode a = IN_PATH
           /\ (currentpathcode a' = OFF_PATH \/ currentpathcode a' = BELOW_PATH)).
Proof.
  intros Hr. destruct (pushCurPath_shape a a' childindex node Hr)
    as (child & Happ & Ha' & Hcode).
  exists child. split; [exact Ha'|]. split.
  { rewrite Ha'. unfold getCurPathTail. simpl. apply getTail_append. }
  split; [|split; [|exact Hcode]].
  - intros Hn. rewrite (append_child_nonnull _ _ _ Hn) in Happ.
    injection Happ as Happ. apply app_inj_tail in Happ as [_ Happ]. congruence.
  - intros ->. unfold append_child, append_index in Happ.
    case_decide; [done|].
    destruct (SoNode_getChild _ _) as [c|]; [|done]. simpl in Happ.
    injection Happ as Happ. apply app_inj_tail in Happ as [_ Happ]. congruence.
Qed.

(** X3: the pops undo the pushes on the current path, and only there.
    [popCurPath] after [pushCurPath(void)] gives the action back;
    [popCurPath] after [pushCurPath(childindex, node)] gives the current
    path back but keeps the path code the push has set; [popPushCurPath]
    replaces the last entry by the new child and never touches the path
    code. *)
Theorem popCurPath_undoes_push (a : SoAction) :
  popCurPath (pushCurPath_void a) = a
  /\ (forall childindex node a',
        pushCurPath childindex node a = Returns a' ->
        popCurPath a' = set_currentpathcode (currentpathcode a') a)
  /\ (forall childindex node a',
        popPushCurPath childindex node a = Returns a' ->
        exists child,
          a' = set_currentpath (pop (currentpath a) ++ [(child, childindex)]) a
          /\ (node <> NULL -> child = node))
  /\ (forall childindex node a1 childindex' node' a2,
        pushCurPath childindex node a = Returns a1 ->
        popPushCurPath childindex' node' a1 = Returns a2 ->
        popCurPath a2 = popCurPath a1).
Proof.
  assert (forall childindex node b b',
            popPushCurPath childindex node b = Returns b' ->
            exists child,
              b' = set_currentpath (pop (currentpath b) ++ [(child, childindex)]) b
              /\ (node <> NULL -> child = node)) as Hpoppush.
  { intros childindex node b b' Hr. unfold popPushCurPath in Hr.
    case_decide as Hn.
    - exec_inv Hr. injection Hr as <-. unfold append_index in Hx. exec_inv Hx.
      injection Hx as <-. exists x0. split; [by destruct b|]. by intros ?.
    - injection Hr as <-. exists node. split; [by destruct b|done]. }
  split; [|split; [|split]].
  - unfold popCurPath, pushCurPath_void. simpl. rewrite pop_append. by destruct a.
  - intros childindex node a' Hr.
    destruct (pushCurPath_shape a a' childindex node Hr) as (child & _ & Ha' & _).
    rewrite Ha' at 1. unfold popCurPath. simpl. rewrite pop_append. by destruct a.
  - intros childindex node a' Hr. by apply (Hpoppush childindex node a a').
  - intros childindex node a1 childindex' node' a2 Hpush Hpp.
    destruct (Hpoppush _ _ _ _ Hpp) as (child & -> & _).
    unfold popCurPath. simpl.
    change (pop (currentpath a1) ++ [(child, childindex')])
      with (append child childindex' (pop (currentpath a1))).
    rewrite pop_append. by destruct a1.
Qed.


(** ** The scratch buffers of [getPathCode] *)

Lemma usePathCode_shape (a a' : SoAction) (args : IndexArgs) :
  usePathCode a = Returns (a', args) ->
  currentpath a <> []
  /\ numindices args = Z.of_nat (length (indices args))
  /\ a' = set_pathcodearray
            (<[(length (currentpath a) - 1)%nat := indices args]>
               (pathcodearray a
                ++ replicate (length (currentpath a) - length (pathcodearray a))%nat []))
            a.
Proof.
  unfold usePathCode. intros Hr.
  destruct (Z.ltb_spec (getFullLength (currentpath a) - 1) 0) as [|Hpos]; [done|].
  assert (currentpath a <> []) as Hne.
  { intros Hnil. rewrite Hnil in Hpos. unfold getFullLength in Hpos. simpl in Hpos. lia. }
  split; [done|].
  replace (Z.to_nat (getFullLength (currentpath a) - 1))
    with (length (currentpath a) - 1)%nat in Hr by (unfold getFullLength; lia).
  replace (Z.to_nat (getFullLength (currentpath a)))
    with (length (currentpath a)) in Hr by (unfold getFullLength; lia).
  case_decide.
  - exec_inv Hr. exec_inv Hr. exec_inv Hr. by injection Hr as <- <-.
  - exec_inv Hr. exec_inv Hr. exec_inv Hr. by injection Hr as <- <-.
Qed.

(** X4: [getPathCode] answers the current path code and changes nothing
    of the action but its scratch buffers.  Outside [IN_PATH] it changes
    nothing at all and leaves its arguments alone.  Under [IN_PATH] the
    count it yields is the length of the index array, the array is the
    buffer of the current depth, and the buffers of all other depths keep
    their contents, so the indices a node was given stay valid while its
    children ask for theirs. *)
Theorem getPathCode_frame (a a' : SoAction) (args args' : IndexArgs) code :
  getPathCode args a = Returns (a', args', code) ->
  code = currentpathcode a
  /\ (code <> IN_PATH -> a' = a /\ args' = args)
  /\ (code = IN_PATH ->
      currentpath a <> []
      /\ numindices args' = Z.of_nat (length (indices args'))
      /\ a' = set_pathcodearray (pathcodearray a') a
      /\ pathcodearray a' !! (length (currentpath a) - 1)%nat = Some (indices args')
      /\ length (pathcodearray a')
         = Nat.max (length (pathcodearray a)) (length (currentpath a))
      /\ forall depth,
           depth <> (length (currentpath a) - 1)%nat ->
           (depth < length (pathcodearray a))%nat ->
           pathcodearray a' !! depth = pathcodearray a !! depth).
Proof.
  unfold getPathCode. intros Hr. case_decide as Hin.
  - exec_inv Hr. destruct x as [b args'']. injection Hr as <- <- <-.
    destruct (usePathCode_shape a b args'' Hx) as (Hne & Hnum & ->). simpl.
    split; [done|]. split; [done|]. intros _.
    assert (length (currentpath a) <> 0)%nat as Hlen by (by destruct (currentpath a)).
    split; [done|]. split; [done|]. split; [done|]. split; [|split].
    + apply list_lookup_insert_eq. rewrite length_app, length_replicate. lia.
    + rewrite length_insert, length_app, length_replicate. lia.
    + intros depth Hother Hold.
      rewrite list_lookup_insert_ne; [|done]. by rewrite lookup_app_l.
  - injection Hr as <- <- <-. split; [done|]. split; [done|]. done.
Qed.


(** ** [getPathCode] and [pushCurPath] agree *)

Lemma pushCurPath_list_step (a : SoAction) (pl : SoPathList) orig
    childindex node cur :
  currentpathcode a = IN_PATH ->
  getWhatAppliedTo a = PATH_LIST ->
  applieddata a = data_pathlistdata (Some pl) orig ->
  append_child childindex node (currentpath a) = Returns cur ->
  pushCurPath childindex node a
  = Returns (set_currentpathcode
               (match list_find (fun p => candidate cur p = true) pl with
                | None => OFF_PATH
                | Some (_, found) =>
                    if decide (getFullLength found = getFullLength cur)
                    then BELOW_PATH else IN_PATH
                end)
               (set_currentpath cur a)).
Proof.
  intros Hin Hwhat Hdata Happ.
  unfold pushCurPath. rewrite Happ. simpl.
  unfold getWhatAppliedTo in *. simpl. rewrite Hin, Hwhat, Hdata. simpl.
  destruct (list_find _ pl) as [[k found]|] eqn:Hfind.
  - rewrite (search_containing_found cur pl 0 (-1) k found Hfind).
    apply list_find_Some in Hfind as (Hk & _ & _).
    apply lookup_lt_Some in Hk.
    case_decide as Hi; [unfold SoPathList_getLength in Hi; lia|].
    repeat case_decide; try done.
    f_equal. destruct a; simpl in *. by subst.
  - pose proof (search_containing_none cur pl 0 (-1) Hfind) as Hnone.
    destruct (search_containing cur (getFullLength cur) pl 0 (-1)) as [i len].
    simpl in Hnone. case_decide; [done|lia].
Qed.

Lemma drop_repeats_elem_of prev (l : list Z) x :
  x <> prev -> x ∈ l -> x ∈ drop_repeats prev l.
Proof.
  revert prev. induction l as [|y l IH]; intros prev Hprev Hx; [done|].
  simpl. apply elem_of_cons in Hx. case_decide as Hy.
  - destruct (decide (x = y)) as [->|Hxy]; [apply list_elem_of_here|].
    apply list_elem_of_further, IH; [done|]. by destruct Hx.
  - apply IH; [done|]. destruct Hx as [->|Hx]; [|done].
    by destruct (decide (y = prev)).
Qed.

(** X5: on a single path the two halves of the path-code machinery agree.
    At a node strictly above the tail of the applied path [getPathCode]
    reports one child index, and a [pushCurPath] issued afterwards gives
    [OFF_PATH] exactly for the children pushed under another index, for
    whatever node is pushed. *)
Theorem reported_index_stays_on_path (a : SoAction) (path : SoPath) (args : IndexArgs) :
  currentpathcode a = IN_PATH ->
  getWhatAppliedTo a = PATH ->
  applieddata a = data_path (Some path) ->
  currentpath a <> [] ->
  getFullLength (currentpath a) < getFullLength path ->
  exists idx a1,
    getPathCode args a = Returns (a1, mkIndexArgs 1 [idx], IN_PATH)
    /\ forall childindex node,
         node <> NULL ->
         exists a',
           pushCurPath childindex node a1 = Returns a'
           /\ (currentpathcode a' = OFF_PATH <-> childindex <> idx).
Proof.
  intros Hin Hwhat Hdata Hne Hlen.
  destruct (usePathCode_path a path Hne Hwhat Hdata Hlen) as (idx & arr & Hidx & Huse & _).
  exists idx, (set_pathcodearray arr a). split.
  { unfold getPathCode. case_decide; [|done]. rewrite Huse. simpl. by rewrite Hin. }
  intros childindex node Hnode.
  set (a1 := set_pathcodearray arr a).
  pose proof (append_child_nonnull childindex node (currentpath a1) Hnode) as Happ.
  destruct (pushCurPath_path_step a1 path childindex node _ Hin Hwhat Hdata Hne Happ)
    as (pi & _ & Hpi & Hstep).
  { rewrite getFullLength_append. simpl. lia. }
  rewrite getFullLength_append in Hpi. simpl in Hpi.
  replace (getFullLength (currentpath a) + 1 - 1)
    with (getFullLength (currentpath a)) in Hpi by lia.
  assert (pi = idx) as -> by congruence.
  eexists. split; [exact Hstep|]. simpl. unfold path_transition.
  repeat case_decide; split; intros; try done; by subst.
Qed.

(** X6: on a path list the two halves agree as well.  With child indices
    that are not negative, the indices [getPathCode] reports at a node
    are exactly those under which some path of the list continues below
    the node; a child pushed under an index that was not reported is
    [OFF_PATH], and the child a path of the list names under a reported
    index is not. *)
Theorem reported_indices_stay_on_paths (a : SoAction) (pl : SoPathList) orig
    (args : IndexArgs) :
  currentpathcode a = IN_PATH ->
  getWhatAppliedTo a = PATH_LIST ->
  applieddata a = data_pathlistdata (Some pl) orig ->
  currentpath a <> [] ->
  Forall valid_indices pl ->
  exists a1 found,
    getPathCode args a
    = Returns (a1, mkIndexArgs (Z.of_nat (length found)) found, IN_PATH)
    /\ (forall x, x ∈ found <-> x ∈ next_indices (currentpath a) pl)
    /\ (forall childindex node a',
          childindex ∉ found ->
          pushCurPath childindex node a1 = Returns a' ->
          currentpathcode a' = OFF_PATH)
    /\ (forall x, x ∈ found ->
          exists path child,
            path ∈ pl
            /\ path !! length (currentpath a) = Some (child, x)
            /\ (child <> NULL ->
                exists a',
                  pushCurPath x child a1 = Returns a'
                  /\ currentpathcode a' <> OFF_PATH)).
Proof.
  intros Hin Hwhat Hdata Hne Hvalid.
  destruct (usePathCode_path_list a pl orig Hne Hwhat Hdata) as (arr & Huse & _).
  set (found := drop_repeats (-1) (next_indices (currentpath a) pl)) in *.
  set (a1 := set_pathcodearray arr a).
  assert (forall x, x ∈ found <-> x ∈ next_indices (currentpath a) pl) as Hfound.
  { intros x. split.
    - intros Hx. eapply elem_of_sublist; [exact Hx|apply drop_repeats_sublist].
    - intros Hx. apply drop_repeats_elem_of; [|done].
      pose proof (next_indices_valid _ pl Hne Hvalid) as Hpos.
      rewrite Forall_forall in Hpos. specialize (Hpos x Hx). lia. }
  exists a1, found. split; [|split; [done|split]].
  - unfold getPathCode. case_decide; [|done]. rewrite Huse. simpl. by rewrite Hin.
  - intros childindex node a' Hnot Hpush.
    destruct (exec_bind_returns _ _ _ Hpush) as (cur & Happ & _).
    rewrite (pushCurPath_list_step a1 pl orig childindex node cur Hin Hwhat Hdata Happ)
      in Hpush.
    injection Hpush as <-. simpl.
    destruct (list_find _ pl) as [[k p]|] eqn:Hfind; [|done]. exfalso.
    apply list_find_Some in Hfind as (Hk & Hc & _).
    apply candidate_spec in Hc as [_ Hpre].
    destruct (append_child_shape _ _ _ _ Happ) as [child ->]. simpl in Hpre.
    apply Hnot, Hfound, next_indices_elem_of.
    exists p, (child, childindex). split; [by eapply list_elem_of_lookup_2|].
    destruct Hpre as [rest ->]. unfold append. rewrite <- app_assoc. simpl.
    split; [|split; [by rewrite list_lookup_middle|done]].
    apply continues_spec. split; [|by eexists].
    unfold getFullLength. rewrite length_app. simpl. lia.
  - intros x Hx. apply Hfound, next_indices_elem_of in Hx
      as (path & [child x'] & Hpath & Hcont & He & ->). simpl.
    exists path, child. split; [done|]. split; [done|]. intros Hchild.
    pose proof (append_child_nonnull x' child (currentpath a1) Hchild) as Happ.
    rewrite (pushCurPath_list_step a1 pl orig x' child _ Hin Hwhat Hdata Happ).
    eexists. split; [reflexivity|]. simpl.
    destruct (list_find _ pl) as [[k p]|] eqn:Hfind; [by case_decide|].
    exfalso. apply list_find_None in Hfind. rewrite Forall_forall in Hfind.
    apply (Hfind path Hpath). apply candidate_spec.
    destruct (continues_split _ _ Hcont) as (e & rest & -> & He').
    assert (e = (child, x')) as -> by (rewrite He in He'; congruence).
    split.
    + rewrite getFullLength_append. unfold getFullLength. rewrite length_app. simpl. lia.
    + exists rest. unfold append. by rewrite <- app_assoc.
Qed.


(** ** The path code on a sorted list *)

Lemma indices_compare_prefix (l k : list Z) :
  k <> [] -> indices_compare l (l ++ k) = Lt.
Proof.
  intros Hk. induction l as [|x l IH]; simpl.
  - by destruct k.
  - by rewrite Z.compare_refl.
Qed.

Lemma proper_prefix_before (p q : SoPath) :
  p <> [] -> p `prefix_of` q -> length p <> length q -> path_compare p q = Lt.
Proof.
  intros Hp [k ->] Hlen. destruct p as [|e p]; [done|].
  assert (k <> []) as Hk.
  { intros ->. rewrite app_nil_r in Hlen. done. }
  unfold path_compare, childIndices. simpl. rewrite Z.compare_refl.
  rewrite map_app. apply indices_compare_prefix. by destruct k.
Qed.

Lemma prefix_same_length {A} (p q : list A) :
  p `prefix_of` q -> length p = length q -> p = q.
Proof.
  intros [k ->] Hlen. rewrite length_app in Hlen.
  destruct k; [by rewrite app_nil_r|simpl in Hlen; lia].
Qed.

Lemma StronglySorted_earlier {A} (R : relation A) (l : list A) i j x y :
  StronglySorted R l -> l !! i = Some x -> l !! j = Some y -> (i < j)%nat -> R x y.
Proof.
  intros Hs. revert i j. induction Hs as [|z l Hs IH Hz]; intros i j Hi Hj Hlt; [done|].
  destruct j as [|j]; [lia|]. simpl in Hj. destruct i as [|i].
  - simpl in Hi. injection Hi as <-. rewrite Forall_forall in Hz.
    apply Hz. by eapply list_elem_of_lookup_2.
  - simpl in Hi. apply (IH i j); [done|done|lia].
Qed.

(** X7: on a sorted applied list the three outcomes of a push from
    [IN_PATH] tell exactly where the new current path lies.  The code
    becomes [BELOW_PATH] when the current path is one of the paths of the
    list, stays [IN_PATH] when it is not but some path of the list runs
    through it, and becomes [OFF_PATH] when no path of the list does. *)
Theorem pushCurPath_sorted_list (a : SoAction) (pl : SoPathList) orig
    childindex node cur :
  currentpathcode a = IN_PATH ->
  getWhatAppliedTo a = PATH_LIST ->
  applieddata a = data_pathlistdata (Some pl) orig ->
  Sorted path_le pl ->
  append_child childindex node (currentpath a) = Returns cur ->
  exists a',
    pushCurPath childindex node a = Returns a'
    /\ currentpath a' = cur
    /\ (cur ∈ pl -> currentpathcode a' = BELOW_PATH)
    /\ (cur ∉ pl -> (exists p, p ∈ pl /\ cur `prefix_of` p) ->
        currentpathcode a' = IN_PATH)
    /\ ((forall p, p ∈ pl -> ~ cur `prefix_of` p) ->
        currentpathcode a' = OFF_PATH).
Proof.
  intros Hin Hwhat Hdata Hsorted Happ.
  apply Sorted_StronglySorted in Hsorted; [|apply path_le_trans].
  rewrite (pushCurPath_list_step a pl orig childindex node cur Hin Hwhat Hdata Happ).
  eexists. split; [reflexivity|]. simpl. split; [done|].
  assert (cur <> []) as Hne.
  { destruct (append_child_shape _ _ _ _ Happ) as [child ->].
    unfold append. by destruct (currentpath a). }
  assert (forall p, cur `prefix_of` p -> candidate cur p = true) as Hcand.
  { intros p Hp. apply candidate_spec. split; [|done].
    apply prefix_length in Hp. unfold getFullLength. lia. }
  destruct (list_find _ pl) as [[k found]|] eqn:Hfind.
  - apply list_find_Some in Hfind as (Hk & Hc & Hfirst).
    apply candidate_spec in Hc as [_ Hpre].
    split; [|split].
    + intros Hcur. case_decide as Hlen; [done|]. exfalso.
      apply list_elem_of_lookup in Hcur as [j Hj].
      assert (length cur <> length found) as Hlen'.
      { intros Heq. apply Hlen. unfold getFullLength. by rewrite Heq. }
      assert (k <> j) as Hkj by (intros ->; congruence).
      assert (k < j)%nat as Hlt.
      { destruct (decide (j < k)%nat) as [Hjk|]; [|lia].
        exfalso. apply (Hfirst j cur Hj Hjk). by apply Hcand. }
      assert (path_le found cur) as Hle.
      { by apply (StronglySorted_earlier path_le pl k j found cur). }
      pose proof (proper_prefix_before cur found Hne Hpre Hlen') as Hbefore.
      unfold path_le, path_leb in Hle.
      rewrite (path_compare_opp cur found), Hbefore in Hle. done.
    + intros Hnot _. case_decide as Hlen; [|done]. exfalso. apply Hnot.
      assert (cur = found) as ->.
      { apply prefix_same_length; [done|]. unfold getFullLength in Hlen. lia. }
      by eapply list_elem_of_lookup_2.
    + intros Hnone. exfalso. apply (Hnone found); [|done].
      by eapply list_elem_of_lookup_2.
  - apply list_find_None in Hfind. rewrite Forall_forall in Hfind.
    split; [|split; [|done]].
    + intros Hcur. exfalso. apply (Hfind cur Hcur). by apply Hcand.
    + intros _ (p & Hp & Hpre). exfalso. apply (Hfind p Hp). by apply Hcand.
Qed.


(** ** Edge cases of [apply] *)

(** X8: without a dispatch table nothing can be applied or traversed: the
    three [apply] overloads fail their assertion before they look at the
    target (a null root and an empty list included), and [traverse] and
    the two switch functions have no table to dispatch through. *)
Theorem no_dispatch_table (a : SoAction) :
  traversalMethods a = None ->
  (forall root, apply_node root a = Undefined)
  /\ (forall path, apply_path path a = Undefined)
  /\ (forall pathlist obeysrules, apply_pathlist pathlist obeysrules a = Undefined)
  /\ (forall node, traverse node a = Undefined)
  /\ (forall path, switchToPathTraversal path a = Undefined)
  /\ (forall node, switchToNodeTraversal node a = Undefined).
Proof.
  intros Htm. repeat split; intros.
  - unfold apply_node, setUp_methods. by rewrite Htm.
  - unfold apply_path, setUp_methods. by rewrite Htm.
  - unfold apply_pathlist, setUp_methods. by rewrite Htm.
  - unfold traverse. by rewrite Htm.
  - unfold switchToPathTraversal, traverse. simpl. rewrite Htm.
    destruct path as [p|]; [|done]. simpl. by destruct (getNode p 0).
  - unfold switchToNodeTraversal, traverse. simpl. by rewrite Htm.
Qed.

(** X9: [apply] on a path that is empty or has a null head starts no
    traversal, whatever the hooks are, but is not a no-op: the dispatch
    table is set up, the termination flag is cleared and the traversal
    state is created; the current path and the fields [apply] restores
    are as before. *)
Theorem apply_path_without_head (a : SoAction) methods (path : SoPath) :
  traversalMethods a = Some methods ->
  getLength path = 0 \/ getHead path = NULL ->
  forall M' : Methods,
    @apply_path C M' (Some path) a
    = Returns (fst (getState
                 (set_terminated false
                    (set_traversalMethods
                       (Some (SoActionMethodList_setUp methods)) a)))).
Proof.
  intros Htm Hhead M'. rewrite (@apply_path_unfold C M' a methods path Htm). cbv zeta.
  assert (forall b : SoAction,
            restore_applied (appliedcode a) (currentpathcode a) (applieddata a)
              (fst (getState
                 (set_appliedcode PATH
                    (set_applieddata (data_path (Some path))
                       (set_currentpathcode (seed_code path)
                          (set_terminated false
                             (set_traversalMethods
                                (Some (SoActionMethodList_setUp methods)) a)))))))
            = fst (getState
                 (set_terminated false
                    (set_traversalMethods
                       (Some (SoActionMethodList_setUp methods)) a)))) as Hsame.
  { intros _. unfold getState. simpl. by destruct a as [[s|] tm ac ad cp t pc arr]. }
  case_decide as Hlen; [|simpl; f_equal; by apply Hsame].
  rewrite (getNode_head path Hlen). simpl.
  case_decide as Hn; [by destruct Hhead|]. simpl. f_equal. by apply Hsame.
Qed.

(** X10: during [apply] on a node the path code is [NO_PATH] throughout.
    The action handed to [beginTraversal] has the root as applied node
    and as its whole current path, an existing state and a clear
    termination flag; however far the traversal descends from there, the
    path code stays [NO_PATH] and [getPathCode] leaves its arguments
    alone. *)
Theorem apply_node_no_path (a : SoAction) methods root :
  traversalMethods a = Some methods ->
  root <> NULL ->
  exists a1,
    apply_node root a
    = restore_applied (appliedcode a) (currentpathcode a) (applieddata a) <$>
        (b1 ← beginTraversal root a1;
         b2 ← endTraversal root b1;
         mret (set_applieddata (data_node NULL) b2))
    /\ getNodeAppliedTo a1 = Returns root
    /\ getCurPath a1 = [(root, -1)]
    /\ state a1 = Some (snd (getState a))
    /\ hasTerminated a1 = false
    /\ forall steps,
         Forall (fun s => fst s <> NULL) steps ->
         exists a2,
           pushCurPath_along steps a1 = Returns a2
           /\ getCurPath a2 = (root, -1) :: steps
           /\ forall args, getPathCode args a2 = Returns (a2, args, NO_PATH).
Proof.
  intros Htm Hroot.
  set (a0 := set_appliedcode NODE
               (set_applieddata (data_node root)
                  (set_currentpathcode NO_PATH
                     (set_terminated false
                        (set_traversalMethods
                           (Some (SoActionMethodList_setUp methods)) a))))).
  exists (fst (getState (set_currentpath (setHead root (currentpath a0)) a0))).
  subst a0. split; [|split; [|split; [|split; [|split]]]].
  - rewrite (apply_node_unfold a methods root Htm). cbv zeta.
    case_decide; [|done]. reflexivity.
  - unfold getState. simpl. by destruct (state a).
  - unfold getState. simpl. by destruct (state a).
  - unfold getState. by destruct a as [[s|] tm ac ad cp t pc arr].
  - unfold getState. simpl. by destruct (state a).
  - intros steps Hsteps.
    rewrite pushCurPath_along_keeps_code;
      [|by unfold getState; simpl; destruct (state a)|done].
    eexists. split; [reflexivity|]. split.
    + unfold getState. simpl. by destruct (state a).
    + intros args. unfold getPathCode, getState. simpl.
      by destruct (state a).
Qed.

(** X11: what [apply] does not restore it passes on as the hooks left it.
    After [apply] on a node the termination flag, the current path, the
    state, the dispatch table and the scratch buffers are those the
    traversal ended with; so a flag raised by an action method is still
    raised, and with hooks that leave the current path balanced the
    current path is now the root alone, not the path of an interrupted
    outer traversal. *)
Theorem apply_node_passes_on (a a' : SoAction) root :
  apply_node root a = Returns a' ->
  root <> NULL ->
  exists a1 b1 b2,
    beginTraversal root a1 = Returns b1
    /\ endTraversal root b1 = Returns b2
    /\ currentpath a1 = [(root, -1)]
    /\ hasTerminated a' = hasTerminated b2
    /\ currentpath a' = currentpath b2
    /\ state a' = state b2
    /\ traversalMethods a' = traversalMethods b2
    /\ pathcodearray a' = pathcodearray b2
    /\ (keeps_currentpath beginTraversal -> keeps_currentpath endTraversal ->
        currentpath a' = [(root, -1)]).
Proof.
  intros Hr Hroot. destruct (traversalMethods a) as [methods|] eqn:Htm;
    [|unfold apply_node, setUp_methods in Hr; by rewrite Htm in Hr].
  rewrite (apply_node_unfold a methods root Htm) in Hr. cbv zeta in Hr.
  apply exec_fmap_returns in Hr as (b & Hr & ->).
  case_decide; [|done]. exec_inv Hr. exec_inv Hr. injection Hr as <-.
  eexists. exists x, x0. split; [exact Hx|]. split; [exact Hx0|].
  split; [by unfold getState; simpl; destruct (state a)|].
  repeat split.
  intros Hb He. simpl. rewrite (He _ _ _ Hx0), (Hb _ _ _ Hx).
  unfold getState. simpl. by destruct (state a).
Qed.


(** ** The hooks of the base class *)

(** X12: with the traversal hooks of the base class, [apply] on a node
    and on a path with a head come down to one call of the action method
    the table holds for the head, the table being the one [setUp] has
    just left, on the action [apply] has prepared; nothing runs after
    the method but the restoring assignments. *)
Theorem base_class_apply
    (methodOf : SoActionMethodList -> SoNodePtr -> SoAction -> exec SoAction)
    (a : SoAction) methods :
  traversalMethods a = Some methods ->
  let finish := restore_applied (appliedcode a) (currentpathcode a) (applieddata a) in
  let prepared :=
    fst (getState (set_terminated false
                     (set_traversalMethods
                        (Some (SoActionMethodList_setUp methods)) a))) in
  (forall root,
     root <> NULL ->
     @apply_node C (base_class methodOf) root a
     = (fun b => finish (set_applieddata (data_node NULL) b)) <$>
         methodOf (SoActionMethodList_setUp methods) root
           (set_currentpath [(root, -1)]
              (set_appliedcode NODE
                 (set_applieddata (data_node root)
                    (set_currentpathcode NO_PATH prepared)))))
  /\ (forall path,
        getLength path <> 0 -> getHead path <> NULL ->
        @apply_path C (base_class methodOf) (Some path) a
        = finish <$>
            methodOf (SoActionMethodList_setUp methods) (getHead path)
              (set_currentpath [(getHead path, -1)]
                 (set_appliedcode PATH
                    (set_applieddata (data_path (Some path))
                       (set_currentpathcode (seed_code path) prepared))))).
Proof.
  intros Htm finish prepared. split.
  - intros root Hroot.
    rewrite (@apply_node_unfold C (base_class methodOf) a methods root Htm). cbv zeta.
    case_decide; [|done].
    unfold base_class, SoAction_beginTraversal, SoAction_endTraversal, traverse.
    cbn [beginTraversal endTraversal actionMethod].
    subst finish prepared. unfold getState.
    destruct a as [[s|] tm ac ad cp t pc arr]; simpl in *;
      (case_decide; [done|]);
      by destruct (methodOf _ _ _).
  - intros path Hlen Hhead.
    rewrite (@apply_path_unfold C (base_class methodOf) a methods path Htm). cbv zeta.
    case_decide; [|done]. rewrite (getNode_head path Hlen).
    unfold mbind at 1, exec_mbind. cbn [exec_bind].
    case_decide; [|done].
    unfold base_class, SoAction_beginTraversal, SoAction_endTraversal, traverse.
    cbn [beginTraversal endTraversal actionMethod].
    subst finish prepared. unfold getState.
    destruct a as [[s|] tm ac ad cp t pc arr]; simpl in *;
      (case_decide; [done|]);
      by destruct (methodOf _ _ _).
Qed.

(** ** Lists that obey the rules *)



(** ** The assertion of [pushCurPath] *)




(** ** The two path lists of an applied list *)

(** X15: during a traversal of a path list [getOriginalPathListAppliedTo]
    gives the list [apply] was called with, reorganized or not, while
    [getPathListAppliedTo] gives the list the traversal runs over: the
    same list when it was passed as obeying the rules, its sorted and
    uniquified copy when it was not and has one head, and the head group
    in each pass over a list with several heads. *)
Theorem applied_lists_during_traversal (a : SoAction) methods (pathlist : SoPathList) p0 :
  traversalMethods a = Some methods ->
  pathlist !! 0%nat = Some p0 ->
  let finish := restore_applied (appliedcode a) (currentpathcode a) (applieddata a) in
  (exists a1,
     apply_pathlist pathlist true a
     = finish <$> (beginTraversal (getHead p0) a1 ≫= endTraversal (getHead p0))
     /\ getPathListAppliedTo a1 = Returns (Some pathlist)
     /\ getOriginalPathListAppliedTo a1 = Returns (Some pathlist))
  /\ (exists s0,
        uniquify (sort pathlist) !! 0%nat = Some s0
        /\ (Forall (fun p => getHead p = getHead s0) (uniquify (sort pathlist)) ->
            exists a1,
              apply_pathlist pathlist false a
              = finish <$>
                  (beginTraversal (getHead s0) a1 ≫= endTraversal (getHead s0))
              /\ getPathListAppliedTo a1 = Returns (Some (uniquify (sort pathlist)))
              /\ getOriginalPathListAppliedTo a1 = Returns (Some pathlist)))
  /\ (forall group t0 (b : SoAction),
        group !! 0%nat = Some t0 ->
        exists b1,
          head_pass group b = beginTraversal (getHead t0) b1
          /\ getPathListAppliedTo b1 = Returns (Some group)
          /\ forall pl orig,
               applieddata b = data_pathlistdata pl orig ->
               getOriginalPathListAppliedTo b1 = Returns orig).
Proof.
  intros Htm Hp0 finish. split; [|split].
  - eexists. split; [|split].
    + rewrite (apply_pathlist_start a methods pathlist p0 true Htm Hp0). reflexivity.
    + reflexivity.
    + reflexivity.
  - destruct (apply_pathlist_unsorted a methods pathlist p0 Htm Hp0)
      as (s0 & Hs0 & Hone & _).
    exists s0. split; [done|]. intros Hall.
    eexists. split; [by apply Hone|]. done.
  - intros group t0 b Ht0. eexists. split; [by apply head_pass_unfold|].
    split; [by destruct (applieddata b)|].
    intros pl orig Hb. unfold getOriginalPathListAppliedTo. simpl. by rewrite Hb.
Qed.


End KernelExtras.


(** * Concrete runs on the small scene *)

Import Scene.

Lemma idle_always_returns :
  always_returns (@beginTraversal _ idle) /\ always_returns (@endTraversal _ idle).
Proof. split; intros node a; exact I. Defined.

Lemma idle_keeps_running :
  (forall node, keeps_running (@beginTraversal _ idle node))
  /\ (forall node, keeps_running (@endTraversal _ idle node)).
Proof. split; intros node a a' [= <-] Ha; exact Ha. Defined.

(** Scenario S1 and S2 of the specification: descending along
    [G0 -> A -> A1] ends below the path, and turning to [A0] under [A]
    leaves it. *)
Lemma pushCurPath_single_path_witness :
  pushCurPath 0 A (at_head_of path_A1)
  = Returns (set_currentpathcode IN_PATH
               (set_currentpath [(G0, -1); (A, 0)] (at_head_of path_A1)))
  /\ pushCurPath_along [(A, 0); (A1, 1)] (at_head_of path_A1)
     = Returns (set_currentpathcode BELOW_PATH
                  (set_currentpath [(G0, -1); (A, 0); (A1, 1)] (at_head_of path_A1)))
  /\ pushCurPath_along [(A, 0); (A0, 0); (7, 3)] (at_head_of path_A1)
     = Returns (set_currentpathcode OFF_PATH
                  (set_currentpath [(G0, -1); (A, 0); (A0, 0); (7, 3)]
                     (at_head_of path_A1))).
Proof.
  destruct (pushCurPath_single_path (at_head_of path_A1) path_A1 0 A
              [(G0, -1); (A, 0)] eq_refl eq_refl eq_refl
              ltac:(discriminate) eq_refl ltac:(vm_compute; discriminate))
    as ((child & pi & _ & _ & Hpi & Hstep) & Halong & Hoff).
  split; [|split].
  - injection Hpi as <-. exact Hstep.
  - apply (Halong [(A, 0); (A1, 1)]).
    + repeat constructor; discriminate.
    + exists []. reflexivity.
  - apply (Hoff [(A, 0)] A0 0 [(7, 3)] (A1, 1)).
    + repeat constructor; discriminate.
    + exists [1]. reflexivity.
    + reflexivity.
    + discriminate.
    + discriminate.
    + repeat constructor; discriminate.
Defined.

(** Scenario S3: under [G0] with the list [G0 -> A -> A1], [G0 -> B], the
    child [B] is the tail of a path and the child [A] is above one. *)
Lemma pushCurPath_path_list_witness :
  pushCurPath 1 B (at_head_of_list [path_A1; path_B])
  = Returns (set_currentpathcode BELOW_PATH
               (set_currentpath [(G0, -1); (B, 1)]
                  (at_head_of_list [path_A1; path_B]))).
Proof.
  destruct (pushCurPath_path_list (at_head_of_list [path_A1; path_B])
              [path_A1; path_B] (Some [path_A1; path_B]) 1 B [(G0, -1); (B, 1)]
              eq_refl eq_refl eq_refl eq_refl) as (Hstep & _ & _).
  exact Hstep.
Defined.

(** The list [G0 -> A], [G0] with [obeysrules] false: the sorted copy is
    the single path [G0], of full length 1, and the traversal over it
    starts with the seed of [G0 -> A], the first path of the list as
    given. *)
Remark apply_pathlist_seed_from_given_list (M : @Methods collaborators) :
  uniquify (sort [path_A; path_G0]) = [path_G0]
  /\ seed_code path_G0 = BELOW_PATH
  /\ exists a1,
       currentpathcode a1 = IN_PATH
       /\ currentpath a1 = [(G0, -1)]
       /\ getPathListAppliedTo a1 = Returns (Some [path_G0])
       /\ getOriginalPathListAppliedTo a1 = Returns (Some [path_A; path_G0])
       /\ apply_pathlist [path_A; path_G0] false ready
          = restore_applied NODE NO_PATH (data_node NULL) <$>
              (beginTraversal G0 a1 ≫= endTraversal G0).
Proof.
  split; [reflexivity|]. split; [reflexivity|].
  eexists. split; [|split; [|split; [|split]]]; cycle 4.
  - rewrite (apply_pathlist_start ready O [path_A; path_G0] path_A false eq_refl eq_refl).
    cbv zeta. change (uniquify (sort [path_A; path_G0])) with [path_G0].
    reflexivity.
  - reflexivity.
  - reflexivity.
  - reflexivity.
  - reflexivity.
Qed.


(** A nested [apply] from the head of a path traversal. *)
Lemma apply_restores_applied_witness :
  exists a',
    @apply_node _ idle H0 (at_head_of path_A1) = Returns a'
    /\ applied_restored (at_head_of path_A1) a'.
Proof.
  destruct (@apply_restores_applied _ idle (at_head_of path_A1) O eq_refl
              (proj1 idle_always_returns) (proj2 idle_always_returns))
    as (Hnode & _).
  exact (Hnode H0).
Defined.

(** The flag of an earlier, terminated run does not survive an [apply]
    on a node. *)
Lemma apply_clears_terminated_witness :
  exists a', @apply_node _ idle G0 stopped = Returns a' /\ hasTerminated a' = false.
Proof.
  destruct (@apply_clears_terminated _ idle stopped O eq_refl
              (proj1 idle_always_returns) (proj2 idle_always_returns)
              (proj1 idle_keeps_running) (proj2 idle_keeps_running))
    as (Hnode & _).
  exact (Hnode G0).
Defined.

(** A run that an action method terminates at [G0], followed by an
    [apply] on an empty path list: the second call invokes no action
    method, whatever the methods are, and [hasTerminated] still answers
    true after it. *)
Lemma empty_pathlist_keeps_terminated :
  exists a1 a2 : SoAction,
    @apply_node _ stopping G0 ready = Returns a1
    /\ hasTerminated a1 = true
    /\ (forall (M : Methods) (obeysrules : bool),
          @apply_pathlist _ M [] obeysrules a1 = Returns a2)
    /\ hasTerminated a2 = true.
Proof.
  eexists. eexists. split; [reflexivity|]. split; [reflexivity|].
  split; [intros M obeysrules; reflexivity|reflexivity].
Qed.

Lemma apply_null_node_witness :
  @apply_node _ idle NULL stopped
  = Returns (set_terminated false (@set_traversalMethods collaborators (Some 1%nat) stopped)).
Proof.
  destruct (@apply_null_node _ idle stopped O eq_refl) as (Hrun & _).
  exact Hrun.
Defined.

(** A run that an action method terminates at [G0], followed by an
    [apply] on a null node: [hasTerminated] answered true before the
    second call and answers false after it. *)
Lemma apply_null_node_clears_flag :
  exists a1 a2 : SoAction,
    @apply_node _ stopping G0 ready = Returns a1
    /\ hasTerminated a1 = true
    /\ (forall M : Methods, @apply_node _ M NULL a1 = Returns a2)
    /\ hasTerminated a2 = false.
Proof.
  eexists. eexists. split; [reflexivity|]. split; [reflexivity|].
  split; [intros M; reflexivity|reflexivity].
Qed.

(** Scenario S4 of the specification, and a list with two heads. *)
Lemma apply_pathlist_normalized_witness :
  uniquify (sort [path_A1; path_A; path_A1]) = [path_A]
  /\ group_heads (uniquify (sort [path_H0; path_A1; path_B]))
     = [[path_A1; path_B]; [path_H0]]
  /\ exists a',
       @apply_pathlist _ stopping [path_H0; path_A1; path_B] false ready = Returns a'
       /\ hasTerminated a' = true.
Proof.
  destruct (@apply_pathlist_normalized _ stopping ready O
              [path_H0; path_A1; path_B] path_H0 eq_refl eq_refl)
    as (_ & (s0 & Hs0 & _ & Hmulti) & _).
  split; [reflexivity|]. split; [reflexivity|].
  injection Hs0 as <-.
  eexists. split.
  - rewrite Hmulti; [reflexivity|].
    intros Hall. apply Forall_cons in Hall as [_ Hall].
    apply Forall_cons in Hall as [_ Hall].
    apply Forall_cons in Hall as [Hhead _]. discriminate Hhead.
  - reflexivity.
Defined.



(** Switching to the path [H0] and to the node [H0] in the middle of a
    traversal of [G0 -> A -> A1], with methods that terminate. *)
Lemma switch_traversal_restores_witness :
  @switchToPathTraversal _ stopping (Some path_H0) (at_head_of path_A1)
  = Returns (setTerminated true (at_head_of path_A1))
  /\ @switchToNodeTraversal _ stopping H0 (at_head_of path_A1)
     = Returns (setTerminated true (at_head_of path_A1)).
Proof.
  destruct (@switch_traversal_restores _ stopping (at_head_of path_A1) O path_H0 H0 H0
              eq_refl eq_refl ltac:(discriminate) ltac:(discriminate))
    as (Hpath & Hnode & _).
  split; [exact Hpath | exact Hnode].
Defined.

Lemma applied_to_accessors_witness :
  getNodeAppliedTo (at_head_of path_A1) = Returns NULL
  /\ getPathAppliedTo (at_head_of path_A1) = Returns (Some path_A1)
  /\ getPathListAppliedTo (at_head_of path_A1) = Returns None
  /\ getOriginalPathListAppliedTo (at_head_of path_A1) = Returns None.
Proof.
  destruct (applied_to_accessors (at_head_of path_A1) I)
    as (_ & Hnode & Hpath & _ & _ & Hlist).
  destruct (Hpath eq_refl) as (path & Hdata & Hget). injection Hdata as <-.
  destruct (Hlist ltac:(discriminate)) as (Hpl & Horig).
  split; [apply Hnode; discriminate|]. split; [exact Hget|]. split; [exact Hpl|exact Horig].
Defined.

(** ** Runs for the further properties *)

Lemma pushCurPath_frame_witness :
  exists a',
    pushCurPath 0 A (at_head_of path_A1) = Returns a'
    /\ getCurPathTail a' = A
    /\ currentpathcode a' = IN_PATH.
Proof.
  eexists. split; [reflexivity|].
  destruct (pushCurPath_frame (at_head_of path_A1) _ 0 A eq_refl)
    as (child & _ & Htail & Hchild & _).
  split; [|reflexivity]. rewrite Htail. apply Hchild. discriminate.
Defined.

Lemma getPathCode_frame_witness :
  exists a' args',
    getPathCode (mkIndexArgs 0 []) (at_head_of_list [path_A1; path_B])
    = Returns (a', args', IN_PATH)
    /\ numindices args' = Z.of_nat (length (indices args'))
    /\ pathcodearray a' !! 0%nat = Some (indices args').
Proof.
  eexists. eexists. split; [reflexivity|].
  destruct (getPathCode_frame (at_head_of_list [path_A1; path_B]) _
              (mkIndexArgs 0 []) _ _ eq_refl) as (_ & _ & Hin).
  destruct (Hin eq_refl) as (_ & Hnum & _ & Hslot & _).
  split; [exact Hnum | exact Hslot].
Defined.

Lemma reported_index_stays_on_path_witness :
  exists idx a1,
    getPathCode (mkIndexArgs 0 []) (at_head_of path_A1)
    = Returns (a1, mkIndexArgs 1 [idx], IN_PATH)
    /\ exists a', pushCurPath 1 B a1 = Returns a'
         /\ (currentpathcode a' = OFF_PATH <-> 1 <> idx).
Proof.
  destruct (reported_index_stays_on_path (at_head_of path_A1) path_A1
              (mkIndexArgs 0 []) eq_refl eq_refl eq_refl
              ltac:(discriminate) ltac:(reflexivity))
    as (idx & a1 & Hget & Hpush).
  exists idx, a1. split; [exact Hget|].
  exact (Hpush 1 B ltac:(discriminate)).
Defined.

Lemma reported_indices_stay_on_paths_witness :
  exists a1 found,
    getPathCode (mkIndexArgs 0 []) (at_head_of_list [path_A1; path_B])
    = Returns (a1, mkIndexArgs (Z.of_nat (length found)) found, IN_PATH)
    /\ forall x, x ∈ found <-> x ∈ next_indices [(G0, -1)] [path_A1; path_B].
Proof.
  destruct (reported_indices_stay_on_paths (at_head_of_list [path_A1; path_B])
              [path_A1; path_B] (Some [path_A1; path_B]) (mkIndexArgs 0 [])
              eq_refl eq_refl eq_refl ltac:(discriminate)
              ltac:(repeat constructor; discriminate))
    as (a1 & found & Hget & Hfound & _).
  exists a1, found. split; [exact Hget | exact Hfound].
Defined.

Lemma path_list_sorted : Sorted path_le [path_A1; path_B].
Proof. repeat constructor. Defined.

Lemma pushCurPath_sorted_list_witness :
  exists a',
    pushCurPath 1 B (at_head_of_list [path_A1; path_B]) = Returns a'
    /\ currentpathcode a' = BELOW_PATH.
Proof.
  destruct (pushCurPath_sorted_list (at_head_of_list [path_A1; path_B])
              [path_A1; path_B] (Some [path_A1; path_B]) 1 B [(G0, -1); (B, 1)]
              eq_refl eq_refl eq_refl path_list_sorted eq_refl)
    as (a' & Hpush & _ & Hbelow & _).
  exists a'. split; [exact Hpush|]. apply Hbelow.
  apply list_elem_of_further, list_elem_of_here.
Defined.

Lemma no_dispatch_table_witness :
  @apply_node _ idle G0 SoAction_new = Undefined
  /\ @apply_pathlist _ idle [] false SoAction_new = Undefined.
Proof.
  destruct (@no_dispatch_table collaborators idle SoAction_new eq_refl)
    as (Hnode & _ & Hlist & _).
  split; [exact (Hnode G0) | exact (Hlist [] false)].
Defined.

Lemma apply_path_without_head_witness :
  @apply_path _ stopping (Some []) stopped
  = Returns (set_terminated false
               (@set_traversalMethods collaborators (Some 1%nat) stopped)).
Proof.
  exact (@apply_path_without_head collaborators stopped O [] eq_refl
           (or_introl eq_refl) stopping).
Defined.

Lemma apply_node_no_path_witness :
  exists a1 : @SoAction collaborators,
    currentpath a1 = [(G0, -1)]
    /\ exists a2 : @SoAction collaborators,
         pushCurPath_along [(A, 0); (A1, 1)] a1 = Returns a2
         /\ getPathCode (mkIndexArgs 0 []) a2 = Returns (a2, mkIndexArgs 0 [], NO_PATH).
Proof.
  destruct (@apply_node_no_path collaborators idle ready O G0 eq_refl
              ltac:(discriminate))
    as (a1 & _ & _ & Hcur & _ & _ & Hdown).
  exists a1. split; [exact Hcur|].
  destruct (Hdown [(A, 0); (A1, 1)] ltac:(repeat constructor; discriminate))
    as (a2 & Halong & _ & Hcode).
  exists a2. split; [exact Halong | exact (Hcode (mkIndexArgs 0 []))].
Defined.

Lemma idle_keeps_currentpath :
  keeps_currentpath (@beginTraversal _ idle)
  /\ keeps_currentpath (@endTraversal _ idle).
Proof. split; intros node a a' [= <-]; reflexivity. Defined.

(** A nested [apply] on [H0] from the middle of a traversal of
    [G0 -> A -> A1] leaves the current path at [H0]. *)
Lemma apply_node_passes_on_witness :
  exists a',
    @apply_node _ idle H0 (at_head_of path_A1) = Returns a'
    /\ currentpath a' = [(H0, -1)].
Proof.
  eexists. split; [reflexivity|].
  destruct (@apply_node_passes_on collaborators idle (at_head_of path_A1) _ H0
              eq_refl ltac:(discriminate))
    as (a1 & b1 & b2 & _ & _ & _ & _ & _ & _ & _ & _ & Hkeep).
  exact (Hkeep (proj1 idle_keeps_currentpath) (proj2 idle_keeps_currentpath)).
Defined.

Lemma base_class_apply_witness :
  @apply_node _ (base_class (fun _ _ a => Returns (setTerminated true a))) G0 ready
  = Returns (setTerminated true
               (set_currentpath [(G0, -1)]
                  (@set_traversalMethods collaborators (Some 1%nat) ready))).
Proof.
  destruct (@base_class_apply collaborators
              (fun _ _ a => Returns (setTerminated true a)) ready O eq_refl)
    as (Hnode & _).
  exact (Hnode G0 ltac:(discriminate)).
Defined.



Lemma applied_lists_during_traversal_witness :
  exists a1,
    getPathListAppliedTo a1 = Returns (Some [path_A])
    /\ getOriginalPathListAppliedTo a1 = Returns (Some [path_A1; path_A; path_A1])
    /\ @apply_pathlist _ idle [path_A1; path_A; path_A1] false ready
       = restore_applied NODE NO_PATH (data_node NULL) <$>
           (@beginTraversal _ idle G0 a1 ≫= @endTraversal _ idle G0).
Proof.
  destruct (@applied_lists_during_traversal collaborators idle ready O
              [path_A1; path_A; path_A1] path_A1 eq_refl eq_refl)
    as (_ & (s0 & Hs0 & Hone) & _).
  injection Hs0 as <-.
  destruct (Hone ltac:(repeat constructor)) as (a1 & Hrun & Hlist & Horig).
  exists a1. split; [exact Hlist|]. split; [exact Horig | exact Hrun].
Defined.
